(** * EasyIterator: a shallow embedding of [include/easy_iterator.h]

    The header defines a cursor class [Iterator<T,D,C>] holding a
    [std::optional<T>], three families of strategy functors (compare,
    increment, dereference), two subclasses ([CallbackIterator],
    [RangeIterator]) and the compositions [wrap], [range], [zip] and
    [enumerate].  Member functions that read or write [current] are embedded
    as state-passing functions on the cursor record; operations whose C++
    behaviour is not defined on every input (reading an empty optional,
    a zero divisor) return an [outcome].

    The numeric template parameter is taken at [int], as in [range(2,10,3)]
    and in the [RangeIterator(0)] of [enumerate].  [compare::ByAddress],
    [dereference::ByValueDereference], [IncrementPtrIterator] and [reverse]
    work on addresses and on a container's reverse iterators; no statement
    below needs them and they are left out. *)

From Stdlib Require Import ZArith List Bool Lia String Ascii.
Import ListNotations.
Open Scope Z_scope.

Set Implicit Arguments.

(** ** Outcomes of a C++ evaluation *)

(** [struct UndefinedIteratorException : std::exception] is the only
    exception type the header declares. *)
Inductive exception : Type :=
| UndefinedIteratorException.

Definition what (e : exception) : string :=
  match e with
  | UndefinedIteratorException => "attempt to dereference an undefined iterator"
  end.

(** An evaluation returns a value, throws, or leaves the defined behaviour of
    the language (reading an empty [std::optional], [%] with a zero
    divisor). *)
Inductive outcome (A : Type) : Type :=
| Ok (a : A)
| Throw (e : exception)
| Undefined.

Arguments Throw {A} e.
Arguments Undefined {A}.

Definition bind {A B : Type} (m : outcome A) (f : A -> outcome B) : outcome B :=
  match m with
  | Ok a => f a
  | Throw e => Throw e
  | Undefined => Undefined
  end.

Notation "x <- m ;; k" := (bind m (fun x => k))
  (at level 61, m at next level, right associativity).

(** Reading the value of [o : std::optional<T>] with the star operator. *)
Definition opt_star {T : Type} (o : option T) : outcome T :=
  match o with
  | Some v => Ok v
  | None => Undefined
  end.

(** A member function of a class with state [S]: the object after the call is
    returned next to the result, also when the call throws. *)
Definition method (S A : Type) : Type := S -> outcome A * S.

(** ** The C++ type [int]

    32-bit two's complement with wrap-around: a result is the mathematical
    one reduced into [min_int .. max_int], which is what the machine
    computes when a signed addition or subtraction overflows.  [%] truncates
    toward zero, as [Z.rem] does; it has no result for a zero divisor, nor
    for [min_int % -1], whose quotient is not representable: the division
    traps. *)
Module Int.

Definition min_int : Z := - 2 ^ 31.
Definition max_int : Z := 2 ^ 31 - 1.

Definition in_range (z : Z) : Prop := min_int <= z <= max_int.

Definition wrap (z : Z) : Z := (z + 2 ^ 31) mod 2 ^ 32 - 2 ^ 31.

Definition add (a b : Z) : Z := wrap (a + b).
Definition sub (a b : Z) : Z := wrap (a - b).
Definition rem (a b : Z) : outcome Z :=
  if b =? 0 then Undefined
  else if (a =? min_int) && (b =? -1) then Undefined
  else Ok (wrap (Z.rem a b)).

End Int.

(** ** Iterator types

    What the header asks of an iterator type it did not define itself: the
    arguments of [zip] are objects with [begin()] and [end()] whose iterators
    support [++], [==] and the star operator. *)
Record IteratorType : Type := mkIteratorType {
  iter : Type;
  value_type : Type;
  it_inc : iter -> outcome iter;
  it_eq : iter -> iter -> outcome bool;
  it_star : iter -> outcome value_type
}.

(** [std::tuple<Args...>] of iterators, and the tuple of what they point to. *)
Fixpoint tuple (ks : list IteratorType) : Type :=
  match ks with
  | [] => unit
  | k :: ks' => (iter k * tuple ks')%type
  end.

Fixpoint value_tuple (ks : list IteratorType) : Type :=
  match ks with
  | [] => unit
  | k :: ks' => (value_type k * value_tuple ks')%type
  end.

(** ** Strategy functors *)

(** [operator==] of a held-value type. *)
Class EqOp (T : Type) : Type := op_eq : T -> T -> bool.

#[global] Instance EqOp_int : EqOp Z := Z.eqb.

Module compare.

Definition ByValue {T : Type} `{EqOp T} (a b : T) : outcome bool :=
  Ok (op_eq a b).

(** [std::get<sizeof...(Args)-1>(a) == std::get<sizeof...(Args)-1>(b)];
    the empty pack has no last element and is not instantiable. *)
Fixpoint ByLastTupleElementMatch (ks : list IteratorType)
  : tuple ks -> tuple ks -> outcome bool :=
  match ks return tuple ks -> tuple ks -> outcome bool with
  | [] => fun _ _ => Undefined
  | k :: ks' =>
      match ks' as l
        return (tuple l -> tuple l -> outcome bool) ->
               iter k * tuple l -> iter k * tuple l -> outcome bool
      with
      | [] => fun _ a b => it_eq k (fst a) (fst b)
      | _ :: _ => fun last a b => last (snd a) (snd b)
      end (ByLastTupleElementMatch ks')
  end.

Definition Never {T : Type} (_ _ : T) : outcome bool := Ok false.

End compare.

Module increment.

(** [template <int A> struct ByValue]: [*v = *v + A]. *)
Definition ByValue (A : Z) (v : option Z) : outcome (option Z) :=
  x <- opt_star v ;; Ok (Some (Int.add x A)).

(** [dummy(++std::get<Idx>(v)...)]: every element is incremented once. *)
Fixpoint getReferenceTuple (ks : list IteratorType) : tuple ks -> outcome (tuple ks) :=
  match ks return tuple ks -> outcome (tuple ks) with
  | [] => fun v => Ok v
  | k :: ks' => fun v =>
      a <- it_inc k (fst v) ;;
      r <- getReferenceTuple ks' (snd v) ;;
      Ok (a, r)
  end.

Definition ByTupleIncrement (ks : list IteratorType) (v : option (tuple ks))
  : outcome (option (tuple ks)) :=
  t <- opt_star v ;; t' <- getReferenceTuple ks t ;; Ok (Some t').

End increment.

Module dereference.

Definition ByValue {T : Type} (v : T) : outcome T := Ok v.

(** [std::make_tuple(...)] of a reference to what each [std::get<Idx>(v)]
    points to, in index order. *)
Fixpoint getReferenceTuple (ks : list IteratorType)
  : tuple ks -> outcome (value_tuple ks) :=
  match ks return tuple ks -> outcome (value_tuple ks) with
  | [] => fun _ => Ok tt
  | k :: ks' => fun v =>
      x <- it_star k (fst v) ;;
      r <- getReferenceTuple ks' (snd v) ;;
      Ok (x, r)
  end.

Definition ByTupleDereference (ks : list IteratorType) (v : tuple ks)
  : outcome (value_tuple ks) :=
  getReferenceTuple ks v.

End dereference.

(** ** [class Iterator<T,D,C>] *)

(** [U] is the type [D] projects a held value to.  The pure virtual member
    [advance] is a field filled in by the subclass. *)
Record Iterator (T U : Type) : Type := mkIterator {
  dereferencer : T -> outcome U;
  compare : T -> T -> outcome bool;
  current : option T;
  advance : option T -> outcome (option T)
}.

Definition set_current {T U : Type} (this : Iterator T U) (c : option T)
  : Iterator T U :=
  mkIterator (dereferencer this) (compare this) c (advance this).

Section IteratorMembers.

Context {T U : Type}.

(** [explicit operator bool() const { return bool(current); }] *)
Definition operator_bool (this : Iterator T U) : bool :=
  match current this with
  | Some _ => true
  | None => false
  end.

(** The dereference operator, a const member: throws when [!*this], else
    applies [dereferencer] to the held value. *)
Definition operator_star : method (Iterator T U) U := fun this =>
  if negb (operator_bool this)
  then (Throw UndefinedIteratorException, this)
  else (v <- opt_star (current this) ;; dereferencer this v, this).

(** [operator++() { advance(current); return *this; }] *)
Definition operator_inc : method (Iterator T U) unit := fun this =>
  match advance this (current this) with
  | Ok c => (Ok tt, set_current this c)
  | Throw e => (Throw e, this)
  | Undefined => (Undefined, this)
  end.

(** [operator==(const Iterator &other) const] *)
Definition operator_eq (this other : Iterator T U) : outcome bool :=
  if negb (operator_bool this) then Ok (negb (operator_bool other))
  else if negb (operator_bool other) then Ok false
  else
    a <- opt_star (current this) ;;
    b <- opt_star (current other) ;;
    compare this a b.

(** [operator!=(const Iterator &other) const] *)
Definition operator_ne (this other : Iterator T U) : outcome bool :=
  r <- operator_eq this other ;; Ok (negb r).

End IteratorMembers.

(** ** [class CallbackIterator<T,F,D,C>]: [advance] calls the stored callback. *)
Definition CallbackIterator {T U : Type}
    (begin : option T)
    (callback : option T -> outcome (option T))
    (_dereferencer : T -> outcome U)
    (_compare : T -> T -> outcome bool) : Iterator T U :=
  mkIterator _dereferencer _compare begin (fun value => callback value).

(** ** [struct WrappedIterator<I>] and [wrap] *)
Record WrappedIterator (I : Type) : Type := mkWrappedIterator {
  beginIterator : I;
  endIterator : I
}.

Definition wrap {I : Type} (a b : I) : WrappedIterator I :=
  mkWrappedIterator a b.

(** ** [struct RangeIterator<T>], at [T = int] *)
Definition RangeIterator (start : Z) (increment : Z) : Iterator Z Z :=
  mkIterator dereference.ByValue compare.ByValue (Some start)
    (fun value => v <- opt_star value ;; Ok (Some (Int.add v increment))).

(** The default argument [_increment = 1]. *)
Definition RangeIterator1 (start : Z) : Iterator Z Z := RangeIterator start 1.

(** ** [range] *)

(** [range(T begin, T end, T increment)] *)
Definition range (begin end_ increment : Z)
  : outcome (WrappedIterator (Iterator Z Z)) :=
  r <- Int.rem (Int.sub end_ begin) increment ;;
  let actualEnd := Int.sub end_ r in
  Ok (wrap (RangeIterator begin increment) (RangeIterator actualEnd increment)).

(** [range(T begin, T end)] *)
Definition range2 (begin end_ : Z) : outcome (WrappedIterator (Iterator Z Z)) :=
  range begin end_ 1.

(** [range(T end)] *)
Definition range1 (end_ : Z) : outcome (WrappedIterator (Iterator Z Z)) :=
  range2 0 end_.

(** ** Sequences and the range-based [for] loop *)

(** An object with [begin()] and [end()]. *)
Record Sequence : Type := mkSequence {
  seq_type : IteratorType;
  seq_begin : iter seq_type;
  seq_end : iter seq_type
}.

(** The cursors of this header as an iterator type. *)
Definition EasyIterator (T U : Type) : IteratorType :=
  mkIteratorType
    (fun it : Iterator T U => _ <- fst (operator_inc it) ;; Ok (snd (operator_inc it)))
    operator_eq
    (fun it => fst (operator_star it)).

(** [WrappedIterator::begin()] and [WrappedIterator::end()] return copies. *)
Definition Wrapped {T U : Type} (w : WrappedIterator (Iterator T U)) : Sequence :=
  mkSequence (EasyIterator T U) (beginIterator w) (endIterator w).

(** A [std::vector<A>] argument, the container of the documented examples:
    its iterator is a position in the storage, [==] compares positions, and
    reading at or past the end is not defined. *)
Record VectorIterator (A : Type) : Type := mkVectorIterator {
  storage : list A;
  position : nat
}.

Definition StdVector (A : Type) : IteratorType :=
  mkIteratorType
    (fun it : VectorIterator A => Ok (mkVectorIterator (storage it) (S (position it))))
    (fun a b => Ok (Nat.eqb (position a) (position b)))
    (fun it =>
       match nth_error (storage it) (position it) with
       | Some x => Ok x
       | None => Undefined
       end).

Definition Vector {A : Type} (v : list A) : Sequence :=
  mkSequence (StdVector A) (mkVectorIterator v 0) (mkVectorIterator v (List.length v)).

(** [a != b], which every iterator type here defines as the negation of
    [a == b] (see [operator_ne]). *)
Definition it_ne (k : IteratorType) (a b : iter k) : outcome bool :=
  r <- it_eq k a b ;; Ok (negb r).

(** [for (auto x : s) ...]: [it = s.begin(); e = s.end();] then, while
    [it != e], read [x] through the star operator, run the body, [++it].
    The values read are collected; [None] when [fuel] iterations did not
    reach [e]. *)
Fixpoint loop (k : IteratorType) (fuel : nat) (it e : iter k)
  : option (outcome (list (value_type k))) :=
  match fuel with
  | O => None
  | S fuel' =>
      match it_ne k it e with
      | Ok false => Some (Ok [])
      | Ok true =>
          match it_star k it with
          | Ok x =>
              match it_inc k it with
              | Ok it' =>
                  match loop k fuel' it' e with
                  | Some (Ok xs) => Some (Ok (x :: xs))
                  | r => r
                  end
              | Throw ex => Some (Throw ex)
              | Undefined => Some Undefined
              end
          | Throw ex => Some (Throw ex)
          | Undefined => Some Undefined
          end
      | Throw ex => Some (Throw ex)
      | Undefined => Some Undefined
      end
  end.

Definition for_range (fuel : nat) (s : Sequence) : option (outcome (list (value_type (seq_type s)))) :=
  loop (seq_type s) fuel (seq_begin s) (seq_end s).

(** [for (auto x : r) ...] on what a constructor such as [range] returned. *)
Definition traverse {T U : Type} (fuel : nat)
    (r : outcome (WrappedIterator (Iterator T U))) : option (outcome (list U)) :=
  match r with
  | Ok w => loop (EasyIterator T U) fuel (beginIterator w) (endIterator w)
  | Throw e => Some (Throw e)
  | Undefined => Some Undefined
  end.

(** [n] times [++it]. *)
Fixpoint advances (k : IteratorType) (n : nat) (it : iter k) : outcome (iter k) :=
  match n with
  | O => Ok it
  | S n' => it' <- it_inc k it ;; advances k n' it'
  end.

(** ** [zip] and [enumerate] *)

Fixpoint begins (args : list Sequence) : tuple (map seq_type args) :=
  match args return tuple (map seq_type args) with
  | [] => tt
  | s :: rest => (seq_begin s, begins rest)
  end.

Fixpoint ends (args : list Sequence) : tuple (map seq_type args) :=
  match args return tuple (map seq_type args) with
  | [] => tt
  | s :: rest => (seq_end s, ends rest)
  end.

(** [zip(Args && ... args)] *)
Definition zip (args : list Sequence)
  : WrappedIterator (Iterator (tuple (map seq_type args)) (value_tuple (map seq_type args))) :=
  let begin :=
    CallbackIterator (Some (begins args))
      (increment.ByTupleIncrement (map seq_type args))
      (dereference.ByTupleDereference (map seq_type args))
      (compare.ByLastTupleElementMatch (map seq_type args)) in
  let end_ :=
    CallbackIterator (Some (ends args))
      (increment.ByTupleIncrement (map seq_type args))
      (dereference.ByTupleDereference (map seq_type args))
      (compare.ByLastTupleElementMatch (map seq_type args)) in
  wrap begin end_.

(** [enumerate(T && t)] *)
Definition enumerate (t : Sequence) :=
  zip [Wrapped (wrap (RangeIterator1 0) (RangeIterator1 0)); t].

(** ** Vocabulary of the statements *)

(** The values [b, b+s, ..., b+(n-1)s]. *)
Definition progression (b s : Z) (n : nat) : list Z :=
  map (fun k => b + Z.of_nat k * s) (seq 0 n).

(** The quotient rounded up, for a positive divisor. *)
Definition ceil_div (a s : Z) : Z := - ((- a) / s).

(** The cursor [zip] builds around a tuple [t] of iterators. *)
Definition zip_cursor (ks : list IteratorType) (t : tuple ks)
  : Iterator (tuple ks) (value_tuple ks) :=
  CallbackIterator (Some t)
    (increment.ByTupleIncrement ks)
    (dereference.ByTupleDereference ks)
    (compare.ByLastTupleElementMatch ks).

(** Two tuples related component by component. *)
Fixpoint tuple_rel (R : forall k, iter k -> iter k -> Prop)
    (ks : list IteratorType) : tuple ks -> tuple ks -> Prop :=
  match ks return tuple ks -> tuple ks -> Prop with
  | [] => fun _ _ => True
  | k :: ks' => fun a b => R k (fst a) (fst b) /\ tuple_rel R ks' (snd a) (snd b)
  end.

(** [x] holds, in order, what the iterators of [t] point to. *)
Fixpoint tuple_points (ks : list IteratorType)
  : tuple ks -> value_tuple ks -> Prop :=
  match ks return tuple ks -> value_tuple ks -> Prop with
  | [] => fun _ _ => True
  | k :: ks' => fun t x =>
      it_star k (fst t) = Ok (fst x) /\ tuple_points ks' (snd t) (snd x)
  end.

(** The last iterator type of a non-empty pack, and the last element of a
    tuple. *)
Fixpoint last_type (k : IteratorType) (ks : list IteratorType) : IteratorType :=
  match ks with
  | [] => k
  | k' :: ks' => last_type k' ks'
  end.

Fixpoint tuple_last (k : IteratorType) (ks : list IteratorType)
  : tuple (k :: ks) -> iter (last_type k ks) :=
  match ks return tuple (k :: ks) -> iter (last_type k ks) with
  | [] => fun t => fst t
  | k' :: ks' => fun t => @tuple_last k' ks' (snd t)
  end.

Arguments tuple_last k ks t : clear implicits.

(** [[(i, x0); (i+1, x1); ...]] in the shape of [zip]'s pairs. *)
Fixpoint indexed {A : Type} (i : Z) (xs : list A) : list (Z * (A * unit)) :=
  match xs with
  | [] => []
  | x :: xs' => (i, (x, tt)) :: indexed (i + 1) xs'
  end.

(** The same with the index computed as the index cursor does, in [int]. *)
Fixpoint indexed_int {A : Type} (i : Z) (xs : list A) : list (Z * (A * unit)) :=
  match xs with
  | [] => []
  | x :: xs' => (i, (x, tt)) :: indexed_int (Int.add i 1) xs'
  end.

(** The pairs of two lists in the shape of [zip]'s pairs. *)
Definition paired {A B : Type} (la : list A) (lb : list B) : list (A * (B * unit)) :=
  map (fun p => (fst p, (snd p, tt))) (combine la lb).

(** ** Pointers and [IncrementPtrIterator]

    A pointer [T*] is an address, counted in elements; the memory it points
    into maps the addresses that hold an object to their contents.  Reading
    an address that holds no object is not defined. *)
Definition pointer : Type := Z.

Definition memory (A : Type) : Type := pointer -> option A.

(** [increment::ByValue<A>] at a pointer type: pointer arithmetic does not
    wrap at the width of [int]. *)
Definition ByValue_pointer (A : Z) (v : option pointer) : outcome (option pointer) :=
  x <- opt_star v ;; Ok (Some (x + A)).

(** [dereference::ByValueDereference]: the object the held pointer points
    to. *)
Definition ByValueDereference {A : Type} (mem : memory A) (v : pointer) : outcome A :=
  match mem v with
  | Some x => Ok x
  | None => Undefined
  end.

(** [IncrementPtrIterator<T>], constructed from an optional pointer. *)
Definition IncrementPtrIterator {A : Type} (mem : memory A) (begin : option pointer)
  : Iterator pointer A :=
  CallbackIterator begin (ByValue_pointer 1) (ByValueDereference mem)
    compare.ByValue.

(** ** [reverse]

    The reverse iterator of a [std::vector<A>] holds a base position and
    points to the element before it; [++] moves the base back, and neither
    reading nor moving is defined at the front of the storage. *)
Definition StdVectorReverse (A : Type) : IteratorType :=
  mkIteratorType
    (fun it : VectorIterator A =>
       match position it with
       | O => Undefined
       | S p => Ok (mkVectorIterator (storage it) p)
       end)
    (fun a b => Ok (Nat.eqb (position a) (position b)))
    (fun it =>
       match position it with
       | O => Undefined
       | S p =>
           match nth_error (storage it) p with
           | Some x => Ok x
           | None => Undefined
           end
       end).

Definition rbegin {A : Type} (v : list A) : VectorIterator A :=
  mkVectorIterator v (List.length v).

Definition rend {A : Type} (v : list A) : VectorIterator A :=
  mkVectorIterator v 0.

(** [reverse(T & v)] *)
Definition reverse {A : Type} (v : list A) : WrappedIterator (VectorIterator A) :=
  wrap (rbegin v) (rend v).

(** A [WrappedIterator] over any iterator type as a sequence. *)
Definition WrappedOf (k : IteratorType) (w : WrappedIterator (iter k)) : Sequence :=
  mkSequence k (beginIterator w) (endIterator w).

(** ** More vocabulary *)

(** The last element of a tuple of values. *)
Fixpoint value_last (k : IteratorType) (ks : list IteratorType)
  : value_tuple (k :: ks) -> value_type (last_type k ks) :=
  match ks return value_tuple (k :: ks) -> value_type (last_type k ks) with
  | [] => fun x => fst x
  | k' :: ks' => fun x => @value_last k' ks' (snd x)
  end.

Arguments value_last k ks x : clear implicits.

(** [[(i, x0); (i+s, x1); ...]] in the shape of [zip]'s pairs, and the same
    with the first component computed in [int]. *)
Fixpoint stepped {A : Type} (i s : Z) (xs : list A) : list (Z * (A * unit)) :=
  match xs with
  | [] => []
  | x :: xs' => (i, (x, tt)) :: stepped (i + s) s xs'
  end.

Fixpoint stepped_int {A : Type} (i s : Z) (xs : list A) : list (Z * (A * unit)) :=
  match xs with
  | [] => []
  | x :: xs' => (i, (x, tt)) :: stepped_int (Int.add i s) s xs'
  end.

(** The callback takes [v] through the values [vs] and then resets it. *)
Fixpoint generates {T : Type} (cb : option T -> outcome (option T))
    (v : T) (vs : list T) : Prop :=
  match vs with
  | [] => cb (Some v) = Ok None
  | v' :: vs' => cb (Some v) = Ok (Some v') /\ generates cb v' vs'
  end.

(** ** The dereference strategy as the code calls it

    The dereference operator evaluates [dereferencer] on the held value of
    the [mutable] member [current], and the strategy's call operator takes
    this value by non-const reference ([operator()(T & v)]): a strategy may
    store into the held value.  Such a cursor is described by a strategy
    that returns, next to its result, the value it leaves in the held
    object.  [dereferencer] of [Iterator] is the case of a strategy that
    leaves the held value as it found it, which is what the three strategies
    of the header do. *)
Record RefIterator (T U : Type) : Type := mkRefIterator {
  ref_dereferencer : T -> outcome U * T;
  ref_compare : T -> T -> outcome bool;
  ref_current : option T;
  ref_advance : option T -> outcome (option T)
}.

Definition ref_set_current {T U : Type} (this : RefIterator T U) (c : option T)
  : RefIterator T U :=
  mkRefIterator (ref_dereferencer this) (ref_compare this) c (ref_advance this).

Definition ref_operator_bool {T U : Type} (this : RefIterator T U) : bool :=
  match ref_current this with
  | Some _ => true
  | None => false
  end.

(** The dereference operator: throws when [!*this], else calls the strategy
    on the held value, which afterwards is what the strategy left there. *)
Definition ref_operator_star {T U : Type} : method (RefIterator T U) U := fun this =>
  if negb (ref_operator_bool this)
  then (Throw UndefinedIteratorException, this)
  else
    match ref_current this with
    | Some v =>
        (fst (ref_dereferencer this v),
         ref_set_current this (Some (snd (ref_dereferencer this v))))
    | None => (Undefined, this)
    end.

(** A cursor of [Iterator] seen with its strategy taking the held value by
    reference and leaving it as it was. *)
Definition by_reference {T U : Type} (it : Iterator T U) : RefIterator T U :=
  mkRefIterator (fun v => (dereferencer it v, v)) (compare it) (current it)
    (advance it).

(** * Properties *)

(** ** Arithmetic of [int] *)

Ltac int_bounds :=
  unfold Int.in_range, Int.min_int, Int.max_int in *;
  change (2 ^ 31) with 2147483648 in *;
  change (2 ^ 32) with 4294967296 in *.

Lemma wrap_in_range (z : Z) : Int.in_range z -> Int.wrap z = z.
Proof.
  unfold Int.in_range, Int.min_int, Int.max_int, Int.wrap.
  change (2 ^ 31) with 2147483648. change (2 ^ 32) with 4294967296.
  intros H. rewrite Z.mod_small; lia.
Qed.

Lemma wrap_is_in_range (z : Z) : Int.in_range (Int.wrap z).
Proof.
  unfold Int.in_range, Int.min_int, Int.max_int, Int.wrap.
  change (2 ^ 31) with 2147483648. change (2 ^ 32) with 4294967296.
  pose proof (Z.mod_pos_bound (z + 2147483648) 4294967296). lia.
Qed.

Lemma wrap_wrap_add (a b : Z) : Int.wrap (Int.wrap a + b) = Int.wrap (a + b).
Proof.
  unfold Int.wrap.
  change (2 ^ 31) with 2147483648. change (2 ^ 32) with 4294967296.
  f_equal.
  replace ((a + 2147483648) mod 4294967296 - 2147483648 + b + 2147483648)
    with ((a + 2147483648) mod 4294967296 + b) by lia.
  rewrite Zplus_mod_idemp_l. f_equal. lia.
Qed.

Lemma rem_nonzero (a b : Z) :
  b <> 0 -> ~ (a = Int.min_int /\ b = -1) ->
  Int.rem a b = Ok (Int.wrap (Z.rem a b)).
Proof.
  intros H Hnt. unfold Int.rem. destruct (Z.eqb_spec b 0); [contradiction |].
  destruct (Z.eqb_spec a Int.min_int), (Z.eqb_spec b (-1)); cbn [andb];
    try reflexivity.
  exfalso. apply Hnt. split; assumption.
Qed.

(** ** One step of a range cursor *)

Lemma range_eq (x y s s' : Z) :
  operator_eq (RangeIterator x s) (RangeIterator y s') = Ok (x =? y).
Proof. reflexivity. Qed.

Lemma range_star (x s : Z) :
  operator_star (RangeIterator x s) = (Ok x, RangeIterator x s).
Proof. reflexivity. Qed.

Lemma range_inc (x s : Z) :
  operator_inc (RangeIterator x s) = (Ok tt, RangeIterator (Int.add x s) s).
Proof. reflexivity. Qed.

Lemma range_it_inc (x s : Z) :
  it_inc (EasyIterator Z Z) (RangeIterator x s) = Ok (RangeIterator (Int.add x s) s).
Proof. reflexivity. Qed.

Lemma progression_S (b s : Z) (n : nat) :
  progression b s (S n) = b :: progression (b + s) s n.
Proof.
  unfold progression. cbn [seq map]. f_equal; [lia |].
  rewrite <- seq_shift, map_map. apply map_ext. intros k. lia.
Qed.

(** ** The loop *)

Lemma loop_more_fuel (k : IteratorType) (fuel extra : nat) (it e : iter k) r :
  loop k fuel it e = Some r -> loop k (fuel + extra) it e = Some r.
Proof.
  revert it r. induction fuel as [| fuel IH]; intros it r; [discriminate |].
  cbn [loop Nat.add]. unfold it_ne.
  destruct (it_eq k it e) as [[|] | |]; cbn [bind negb];
    try (intros H; exact H).
  destruct (it_star k it); try (intros H; exact H).
  destruct (it_inc k it) as [it' | |]; try (intros H; exact H).
  destruct (loop k fuel it' e) as [r' |] eqn:E.
  - rewrite (IH _ _ E). intros H; exact H.
  - discriminate.
Qed.

(** A range cursor [n] steps before the end cursor reaches it after [n]
    reads. *)
Lemma loop_range (n : nat) :
  forall (b s : Z) (fuel : nat),
    s <> 0 ->
    (forall j, 0 <= j <= Z.of_nat n -> Int.in_range (b + j * s)) ->
    (n < fuel)%nat ->
    loop (EasyIterator Z Z) fuel (RangeIterator b s)
         (RangeIterator (b + Z.of_nat n * s) s)
    = Some (Ok (progression b s n)).
Proof.
  induction n as [| n IH]; intros b s fuel Hs Hr Hf.
  - destruct fuel as [| fuel]; [lia |].
    cbn [loop]. unfold it_ne.
    change (it_eq (EasyIterator Z Z)) with (@operator_eq Z Z).
    rewrite range_eq. replace (b + Z.of_nat 0 * s) with b by lia.
    rewrite Z.eqb_refl. reflexivity.
  - destruct fuel as [| fuel]; [lia |].
    cbn [loop]. unfold it_ne.
    change (it_eq (EasyIterator Z Z)) with (@operator_eq Z Z).
    rewrite range_eq.
    destruct (Z.eqb_spec b (b + Z.of_nat (S n) * s)) as [E | _]; [nia |].
    cbn [bind negb].
    change (it_star (EasyIterator Z Z) (RangeIterator b s)) with (@Ok Z b).
    rewrite range_it_inc.
    assert (Hadd : Int.add b s = b + s).
    { unfold Int.add. apply wrap_in_range.
      replace (b + s) with (b + 1 * s) by lia. apply Hr. lia. }
    rewrite Hadd.
    replace (b + Z.of_nat (S n) * s) with ((b + s) + Z.of_nat n * s) by lia.
    rewrite IH; [| assumption | | lia].
    + rewrite progression_S. reflexivity.
    + intros j Hj. replace (b + s + j * s) with (b + (j + 1) * s) by lia.
      apply Hr. lia.
Qed.

Lemma advances_range (n : nat) :
  forall (b s : Z),
    (forall j, 0 <= j <= Z.of_nat n -> Int.in_range (b + j * s)) ->
    advances (EasyIterator Z Z) n (RangeIterator b s)
    = Ok (RangeIterator (b + Z.of_nat n * s) s).
Proof.
  induction n as [| n IH]; intros b s Hr.
  - cbn [advances]. do 2 f_equal. lia.
  - cbn [advances]. rewrite range_it_inc. cbn [bind].
    assert (Hadd : Int.add b s = b + s).
    { unfold Int.add. apply wrap_in_range.
      replace (b + s) with (b + 1 * s) by lia. apply Hr. lia. }
    rewrite Hadd, IH.
    + do 2 f_equal. lia.
    + intros j Hj. replace (b + s + j * s) with (b + (j + 1) * s) by lia.
      apply Hr. lia.
Qed.

(** ** The end cursor of [range] *)

Lemma rem_between (a s : Z) :
  s <> 0 ->
  (0 <= a -> 0 <= Z.rem a s <= a) /\ (a <= 0 -> a <= Z.rem a s <= 0).
Proof.
  intros Hs.
  assert (Hpos : forall x, 0 <= x -> 0 <= Z.rem x s <= x).
  { intros x Hx. split; [apply Z.rem_nonneg; assumption |].
    rewrite <- (Z.rem_abs_r x s Hs). apply Z.rem_le; lia. }
  split; intros Ha.
  - apply Hpos; assumption.
  - replace a with (- - a) by lia. rewrite Z.rem_opp_l by assumption.
    specialize (Hpos (- a)). lia.
Qed.

Lemma range_ok (b e s : Z) :
  s <> 0 -> Int.in_range b -> Int.in_range e -> Int.in_range (e - b) ->
  ~ (e - b = Int.min_int /\ s = -1) ->
  range b e s
  = Ok (wrap (RangeIterator b s) (RangeIterator (e - Z.rem (e - b) s) s)).
Proof.
  intros Hs Hb He Hd Hnt. unfold range, Int.sub.
  rewrite (wrap_in_range Hd), (rem_nonzero Hs Hnt). cbn [bind].
  destruct (rem_between (e - b) Hs) as [Hp Hn].
  assert (Hr : Int.in_range (Z.rem (e - b) s)) by (int_bounds; lia).
  rewrite (wrap_in_range Hr).
  assert (Ha : Int.in_range (e - Z.rem (e - b) s)) by (int_bounds; lia).
  rewrite (wrap_in_range Ha). reflexivity.
Qed.

(** The end value is [quot] steps away from [begin]. *)
Lemma actual_end_steps (b e s : Z) :
  e - Z.rem (e - b) s = b + ((e - b) ÷ s) * s.
Proof. pose proof (Z.quot_rem' (e - b) s). lia. Qed.

Lemma steps_in_range (b e s j : Z) :
  s <> 0 -> Int.in_range b -> Int.in_range e -> 0 <= (e - b) * s ->
  0 <= j <= (e - b) ÷ s -> Int.in_range (b + j * s).
Proof.
  intros Hs Hb He Hdir Hj.
  destruct (rem_between (e - b) Hs) as [Hp Hn].
  pose proof (Z.quot_rem' (e - b) s) as Hq.
  int_bounds.
  destruct (Z.le_gt_cases 0 (e - b)) as [Hpos | Hneg].
  - specialize (Hp Hpos). assert (0 < s \/ e - b = 0) as [Hs' | E] by nia.
    + nia.
    + rewrite E in Hj. rewrite Z.quot_0_l in Hj by assumption.
      replace j with 0 by lia. lia.
  - assert (Hneg' : e - b <= 0) by lia. specialize (Hn Hneg').
    assert (s < 0) by nia. nia.
Qed.

Lemma progression_length (b s : Z) (n : nat) : List.length (progression b s n) = n.
Proof. unfold progression. rewrite length_map, length_seq. reflexivity. Qed.

Lemma progression_nth (b s : Z) (n k : nat) :
  (k < n)%nat -> nth_error (progression b s n) k = Some (b + Z.of_nat k * s).
Proof.
  intros Hk. unfold progression.
  rewrite nth_error_map, nth_error_seq.
  destruct (Nat.ltb_spec k n); [reflexivity | lia].
Qed.

Lemma progression_In (b s : Z) (n : nat) (x : Z) :
  In x (progression b s n) ->
  exists k, (k < n)%nat /\ x = b + Z.of_nat k * s.
Proof.
  unfold progression. rewrite in_map_iff. intros [k [E Hin]].
  apply in_seq in Hin. exists k. split; [lia | congruence].
Qed.

(** The traversal of [range] when [step] points from [begin] to [end]. *)
Lemma traverse_range (b e s : Z) (fuel : nat) :
  s <> 0 -> Int.in_range b -> Int.in_range e -> Int.in_range (e - b) ->
  ~ (e - b = Int.min_int /\ s = -1) ->
  0 <= (e - b) * s ->
  (Z.to_nat ((e - b) ÷ s) < fuel)%nat ->
  traverse fuel (range b e s)
  = Some (Ok (progression b s (Z.to_nat ((e - b) ÷ s)))).
Proof.
  intros Hs Hb He Hd Hnt Hdir Hf.
  assert (Hq : 0 <= (e - b) ÷ s).
  { destruct (Z.le_gt_cases 0 (e - b)).
    - assert (0 < s \/ e - b = 0) as [Hs' | E] by nia.
      + apply Z.quot_pos; lia.
      + rewrite E, Z.quot_0_l by assumption. lia.
    - assert (s < 0) by nia.
      rewrite <- (Z.quot_opp_opp (e - b) s) by assumption.
      apply Z.quot_pos; lia. }
  rewrite (range_ok Hs Hb He Hd Hnt).
  cbn [traverse wrap beginIterator endIterator].
  rewrite actual_end_steps.
  replace ((e - b) ÷ s) with (Z.of_nat (Z.to_nat ((e - b) ÷ s))) at 1 by lia.
  apply loop_range; [assumption | | assumption].
  intros j Hj. apply (@steps_in_range b e s j); try assumption. lia.
Qed.

(** ** Tuples of iterators *)

Lemma tuple_increment_steps (ks : list IteratorType) :
  forall t t' : tuple ks,
    increment.getReferenceTuple ks t = Ok t' <->
    tuple_rel (fun k a a' => it_inc k a = Ok a') ks t t'.
Proof.
  induction ks as [| k ks IH]; intros t t'.
  - destruct t, t'. cbn. split; [intros _; exact I | reflexivity].
  - destruct t as [a r], t' as [a' r'].
    cbn [increment.getReferenceTuple tuple_rel fst snd]. split.
    + destruct (it_inc k a) as [a1 | |]; cbn [bind]; try discriminate.
      destruct (increment.getReferenceTuple ks r) as [r1 | |] eqn:E;
        cbn [bind]; try discriminate.
      intros H. injection H as -> ->. split; [reflexivity |].
      apply IH. exact E.
    + intros [Ha Hr]. apply IH in Hr. rewrite Ha, Hr. reflexivity.
Qed.

Lemma tuple_dereference_points (ks : list IteratorType) :
  forall (t : tuple ks) (x : value_tuple ks),
    dereference.getReferenceTuple ks t = Ok x <-> tuple_points ks t x.
Proof.
  induction ks as [| k ks IH]; intros t x.
  - destruct x. cbn. split; [intros _; exact I | reflexivity].
  - destruct t as [a r], x as [y ys].
    cbn [dereference.getReferenceTuple tuple_points fst snd]. split.
    + destruct (it_star k a) as [y1 | |]; cbn [bind]; try discriminate.
      destruct (dereference.getReferenceTuple ks r) as [r1 | |] eqn:E;
        cbn [bind]; try discriminate.
      intros H. injection H as -> ->. split; [reflexivity |].
      apply IH. exact E.
    + intros [Ha Hr]. apply IH in Hr. rewrite Ha, Hr. reflexivity.
Qed.

Lemma last_element_match (ks : list IteratorType) :
  forall (k : IteratorType) (a b : tuple (k :: ks)),
    compare.ByLastTupleElementMatch (k :: ks) a b
    = it_eq (last_type k ks) (tuple_last k ks a) (tuple_last k ks b).
Proof.
  induction ks as [| k' ks IH]; intros k a b.
  - reflexivity.
  - destruct a as [a r], b as [b r']. exact (IH k' r r').
Qed.

Lemma zip_cursor_inc (ks : list IteratorType) (t : tuple ks) :
  operator_inc (zip_cursor ks t)
  = match increment.getReferenceTuple ks t with
    | Ok t' => (Ok tt, zip_cursor ks t')
    | Throw e => (Throw e, zip_cursor ks t)
    | Undefined => (Undefined, zip_cursor ks t)
    end.
Proof.
  unfold operator_inc, zip_cursor, CallbackIterator.
  cbn [advance current increment.ByTupleIncrement opt_star bind].
  destruct (increment.getReferenceTuple ks t); reflexivity.
Qed.

Lemma zip_cursor_star (ks : list IteratorType) (t : tuple ks) :
  fst (operator_star (zip_cursor ks t)) = dereference.getReferenceTuple ks t.
Proof. reflexivity. Qed.

Lemma zip_cursor_eq (ks : list IteratorType) (t e : tuple ks) :
  operator_eq (zip_cursor ks t) (zip_cursor ks e)
  = compare.ByLastTupleElementMatch ks t e.
Proof. reflexivity. Qed.

(** ** Loops over [zip] cursors *)

Lemma skipn_nth_error (A : Type) (l : list A) (i : nat) (a : A) :
  nth_error l i = Some a -> skipn i l = a :: skipn (S i) l.
Proof.
  revert i. induction l as [| x l IH]; intros [| i] H; try discriminate.
  - injection H as ->. reflexivity.
  - cbn [skipn]. apply IH. exact H.
Qed.

Lemma loop_zip_vectors (A B : Type) (la : list A) (lb : list B) (n : nat) :
  forall (i fuel : nat),
    (i + n = List.length lb)%nat -> (List.length lb <= List.length la)%nat ->
    (n < fuel)%nat ->
    loop (EasyIterator _ _) fuel
      (zip_cursor [StdVector A; StdVector B]
         (mkVectorIterator la i, (mkVectorIterator lb i, tt)))
      (zip_cursor [StdVector A; StdVector B]
         (mkVectorIterator la (List.length la),
          (mkVectorIterator lb (List.length lb), tt)))
    = Some (Ok (paired (skipn i la) (skipn i lb))).
Proof.
  induction n as [| n IH]; intros i fuel Hi Hle Hf;
    (destruct fuel as [| fuel]; [lia |]);
    cbn [loop]; unfold it_ne; cbn [it_eq it_star it_inc EasyIterator];
    rewrite zip_cursor_eq, zip_cursor_star, zip_cursor_inc.
  - cbn. replace i with (List.length lb) by lia. rewrite Nat.eqb_refl.
    rewrite skipn_all. unfold paired. rewrite combine_nil. reflexivity.
  - cbn [compare.ByLastTupleElementMatch it_eq StdVector position fst snd].
    destruct (Nat.eqb_spec i (List.length lb)) as [E | _]; [lia |].
    cbn [bind negb].
    destruct (nth_error la i) as [a |] eqn:Ea;
      [| apply nth_error_None in Ea; lia].
    destruct (nth_error lb i) as [b |] eqn:Eb;
      [| apply nth_error_None in Eb; lia].
    cbn [dereference.getReferenceTuple increment.getReferenceTuple it_star it_inc
         StdVector storage position fst snd bind].
    rewrite Ea, Eb. cbn [bind fst snd].
    rewrite IH by lia.
    rewrite (skipn_nth_error _ _ Ea), (skipn_nth_error _ _ Eb). reflexivity.
Qed.

Lemma paired_length (A B : Type) (la : list A) (lb : list B) :
  (List.length lb <= List.length la)%nat ->
  List.length (paired la lb) = List.length lb.
Proof.
  intros H. unfold paired. rewrite length_map, length_combine. lia.
Qed.

Lemma indexed_int_plain (A : Type) (xs : list A) :
  forall i, Int.in_range i -> i + Z.of_nat (List.length xs) <= Int.max_int + 1 ->
            indexed_int i xs = indexed i xs.
Proof.
  induction xs as [| x xs IH]; intros i Hi Hlen; [reflexivity |].
  cbn [indexed_int indexed]. f_equal.
  destruct xs as [| y ys]; [reflexivity |].
  assert (Hadd : Int.add i 1 = i + 1).
  { unfold Int.add. apply wrap_in_range. cbn [List.length] in Hlen. int_bounds. lia. }
  rewrite Hadd. apply IH.
  - cbn [List.length] in Hlen. int_bounds. lia.
  - cbn [List.length] in *. lia.
Qed.

(** The loop over [enumerate]'s cursors follows the loop over the sequence
    alone, whatever the index cursors hold. *)
Lemma loop_enumerate (k : IteratorType) (e : iter k) (j : Z) (fuel : nat) :
  forall (a : iter k) (i : Z),
    loop (EasyIterator _ _) fuel
      (zip_cursor [EasyIterator Z Z; k] (RangeIterator i 1, (a, tt)))
      (zip_cursor [EasyIterator Z Z; k] (RangeIterator j 1, (e, tt)))
    = match loop k fuel a e with
      | Some (Ok xs) => Some (Ok (indexed_int i xs))
      | Some (Throw ex) => Some (Throw ex)
      | Some Undefined => Some Undefined
      | None => None
      end.
Proof.
  induction fuel as [| fuel IH]; intros a i; [reflexivity |].
  cbn [loop]. unfold it_ne. cbn [it_eq it_star it_inc EasyIterator].
  rewrite zip_cursor_eq, zip_cursor_star, zip_cursor_inc.
  cbn [compare.ByLastTupleElementMatch fst snd].
  destruct (it_eq k a e) as [[|] | |]; cbn [bind negb]; try reflexivity.
  cbn [dereference.getReferenceTuple fst snd].
  change (it_star (EasyIterator Z Z) (RangeIterator i 1)) with (@Ok Z i).
  cbn [bind].
  destruct (it_star k a) as [x | |]; cbn [bind]; try reflexivity.
  cbn [increment.getReferenceTuple fst snd].
  rewrite range_it_inc. cbn [bind].
  destruct (it_inc k a) as [a' | |]; cbn [bind fst snd]; try reflexivity.
  rewrite IH.
  destruct (loop k fuel a' e) as [[xs | |] |]; reflexivity.
Qed.

(** ** Repeated operations on one cursor *)

Lemma star_state (T U : Type) (this : Iterator T U) :
  snd (operator_star this) = this.
Proof. unfold operator_star. destruct (negb (operator_bool this)); reflexivity. Qed.

Lemma advances_range_iter (n : nat) :
  forall v s : Z,
    advances (EasyIterator Z Z) n (RangeIterator v s)
    = Ok (RangeIterator (Nat.iter n (fun x => Int.add x s) v) s).
Proof.
  induction n as [| n IH]; intros v s; [reflexivity |].
  cbn [advances]. rewrite range_it_inc. cbn [bind]. rewrite IH.
  do 2 f_equal. change (Int.add v s) with ((fun x => Int.add x s) v).
  rewrite Nat.iter_swap. reflexivity.
Qed.

Lemma iter_add_closed (s : Z) (n : nat) :
  forall v, Int.in_range v ->
            Nat.iter n (fun x => Int.add x s) v = Int.wrap (v + Z.of_nat n * s).
Proof.
  induction n as [| n IH]; intros v Hv.
  - cbn [Nat.iter nat_rect]. rewrite Z.add_0_r. symmetry. apply wrap_in_range. exact Hv.
  - rewrite Nat.iter_succ, IH by exact Hv. unfold Int.add.
    rewrite wrap_wrap_add. f_equal. lia.
Qed.

(** ** Reaching the end cursor in [int] arithmetic *)

Lemma wrap_congr (x y k : Z) : x = y + 4294967296 * k -> Int.wrap x = Int.wrap y.
Proof.
  intros ->. unfold Int.wrap.
  change (2 ^ 31) with 2147483648. change (2 ^ 32) with 4294967296.
  f_equal.
  replace (y + 4294967296 * k + 2147483648)
    with (y + 2147483648 + k * 4294967296) by lia.
  apply Z_mod_plus_full.
Qed.

Lemma wrap_differs_by_modulus (z : Z) :
  exists k, Int.wrap z = z + 4294967296 * k.
Proof.
  unfold Int.wrap.
  change (2 ^ 31) with 2147483648. change (2 ^ 32) with 4294967296.
  exists (- ((z + 2147483648) / 4294967296)).
  pose proof (Z_div_mod_eq_full (z + 2147483648) 4294967296). lia.
Qed.

(** [range] on [int] operands, also when [end - begin] overflows. *)
Lemma range_ok_int (b e s : Z) :
  s <> 0 -> ~ (Int.sub e b = Int.min_int /\ s = -1) ->
  range b e s
  = Ok (wrap (RangeIterator b s)
          (RangeIterator (Int.sub e (Z.rem (Int.sub e b) s)) s)).
Proof.
  intros Hs Hnt. unfold range. rewrite (rem_nonzero Hs Hnt). cbn [bind].
  assert (Hr : Int.in_range (Z.rem (Int.sub e b) s)).
  { destruct (rem_between (Int.sub e b) Hs) as [Hp Hn].
    pose proof (wrap_is_in_range (e - b)) as Hd. fold (Int.sub e b) in Hd.
    int_bounds. lia. }
  rewrite (wrap_in_range Hr). reflexivity.
Qed.

Lemma loop_range_step (fuel : nat) (v s a s' : Z) :
  loop (EasyIterator Z Z) (S fuel) (RangeIterator v s) (RangeIterator a s')
  = if v =? a then Some (Ok [])
    else match loop (EasyIterator Z Z) fuel (RangeIterator (Int.add v s) s)
                 (RangeIterator a s') with
         | Some (Ok xs) => Some (Ok (v :: xs))
         | r => r
         end.
Proof.
  change (loop (EasyIterator Z Z) (S fuel) (RangeIterator v s) (RangeIterator a s'))
    with (match (r <- operator_eq (RangeIterator v s) (RangeIterator a s') ;;
                 Ok (negb r)) with
          | Ok false => Some (Ok [])
          | Ok true =>
              match loop (EasyIterator Z Z) fuel (RangeIterator (Int.add v s) s)
                      (RangeIterator a s') with
              | Some (Ok xs) => Some (Ok (v :: xs))
              | r => r
              end
          | Throw ex => Some (Throw ex)
          | Undefined => Some Undefined
          end).
  rewrite range_eq. destruct (v =? a); reflexivity.
Qed.

(** A range cursor that equals the end cursor after [n] advances ends the
    loop within [n] reads. *)
Lemma loop_reaches (n : nat) :
  forall v s a s' : Z,
    advances (EasyIterator Z Z) n (RangeIterator v s) = Ok (RangeIterator a s') ->
    exists l, loop (EasyIterator Z Z) (S n) (RangeIterator v s) (RangeIterator a s')
              = Some (Ok l) /\ (List.length l <= n)%nat.
Proof.
  induction n as [| n IH]; intros v s a s' H; rewrite loop_range_step.
  - cbn [advances] in H. injection H as -> _. rewrite Z.eqb_refl.
    exists []. split; [reflexivity | cbn [List.length]; lia].
  - destruct (Z.eqb_spec v a).
    + exists []. split; [reflexivity | cbn [List.length]; lia].
    + cbn [advances] in H. rewrite range_it_inc in H. cbn [bind] in H.
      destruct (IH _ _ _ _ H) as [l [Hl Hlen]].
      rewrite Hl. exists (v :: l). split; [reflexivity | cbn [List.length]; lia].
Qed.

(** The begin cursor of [range] becomes the end cursor after finitely many
    advances, by wrap-around when the step points away from the end. *)
Lemma range_reaches_end (b e s : Z) :
  Int.in_range b -> s <> 0 ->
  exists n,
    advances (EasyIterator Z Z) n (RangeIterator b s)
    = Ok (RangeIterator (Int.sub e (Z.rem (Int.sub e b) s)) s).
Proof.
  intros Hb Hs.
  set (d := Int.sub e b). set (q := d ÷ s).
  exists (Z.to_nat (q mod 4294967296)).
  rewrite advances_range_iter, iter_add_closed by exact Hb.
  do 2 f_equal. unfold Int.sub.
  destruct (wrap_differs_by_modulus (e - b)) as [j Hj].
  fold (Int.sub e b) in Hj. fold d in Hj.
  pose proof (Z.quot_rem' d s) as Hqr. fold q in Hqr.
  pose proof (Z_div_mod_eq_full q 4294967296) as Hq.
  pose proof (Z.mod_pos_bound q 4294967296 ltac:(lia)) as Hpos.
  rewrite Z2Nat.id by lia.
  apply wrap_congr with (k := j - (q / 4294967296) * s). nia.
Qed.

(** * The claims *)

(** ** Ranges *)

(** C1, as the code has it: for [beginValue <= endValue] and a positive
    [step] (values of [int] whose difference is representable),
    [range(beginValue, endValue, step)] yields exactly
    [floor((endValue-beginValue)/step)] values: the first is [beginValue],
    the [k]-th is [beginValue + k*step], every one lies strictly below the
    end cursor's value [endValue - (endValue-beginValue) mod step], and
    [endValue] is never yielded. *)
Theorem range_yields_quotient_many (b e s : Z) :
  Int.in_range b -> Int.in_range e -> Int.in_range s ->
  b <= e -> e - b <= Int.max_int -> 0 < s ->
  let n := Z.to_nat ((e - b) / s) in
  (forall fuel, (n < fuel)%nat ->
     traverse fuel (range b e s) = Some (Ok (progression b s n))) /\
  List.length (progression b s n) = n /\
  (forall k, (k < n)%nat ->
     nth_error (progression b s n) k = Some (b + Z.of_nat k * s)) /\
  (forall x, In x (progression b s n) -> b <= x < e - (e - b) mod s) /\
  ~ In e (progression b s n).
Proof.
  intros Hb He Hsr Hle Hd Hs n.
  assert (Hs0 : s <> 0) by lia.
  assert (Hdr : Int.in_range (e - b)) by (int_bounds; lia).
  assert (Hq : (e - b) / s = (e - b) ÷ s)
    by (symmetry; apply Z.quot_div_nonneg; lia).
  assert (Hm : (e - b) mod s = Z.rem (e - b) s)
    by (symmetry; apply Z.rem_mod_nonneg; lia).
  assert (Hn0 : 0 <= (e - b) / s) by (apply Z.div_pos; lia).
  assert (Hbelow : forall x, In x (progression b s n) -> b <= x < e - (e - b) mod s).
  { intros x Hx. apply progression_In in Hx. destruct Hx as [k [Hk ->]].
    rewrite Hm, actual_end_steps, <- Hq.
    assert (Z.of_nat k < (e - b) / s) by (unfold n in Hk; lia). nia. }
  repeat split.
  - intros fuel Hf. unfold n in *. rewrite Hq in *.
    apply traverse_range; try assumption; [lia | nia].
  - apply progression_length.
  - intros k Hk. apply progression_nth. assumption.
  - apply Hbelow; assumption.
  - apply Hbelow; assumption.
  - intros Hin. apply Hbelow in Hin.
    pose proof (Z.mod_pos_bound (e - b) s Hs). lia.
Qed.

Lemma range_yields_quotient_many_witness :
  traverse 3 (range 2 10 3) = Some (Ok (progression 2 3 2)).
Proof.
  refine (proj1 (@range_yields_quotient_many 2 10 3 _ _ _ _ _ _) 3%nat _);
    try (unfold Int.in_range, Int.min_int, Int.max_int; vm_compute; split; discriminate);
    try (vm_compute; congruence); try reflexivity.
  vm_compute. lia.
Defined.

(** C1 fails as stated: [range(2,10,3)] stops when the begin cursor equals
    the end cursor's 8, so it yields [[2,5]]: two values, where
    [ceil((10-2)/3)] is three. *)
Lemma range_2_10_3_stops_before_8 :
  traverse 3 (range 2 10 3) = Some (Ok [2; 5]) /\
  (forall fuel, traverse fuel (range 2 10 3) <> Some (Ok [2; 5; 8])) /\
  (forall fuel l, traverse fuel (range 2 10 3) = Some (Ok l) ->
     Z.of_nat (List.length l) <> ceil_div (10 - 2) 3).
Proof.
  assert (H3 : traverse 3 (range 2 10 3) = Some (Ok [2; 5])) by (vm_compute; reflexivity).
  assert (Hall : forall fuel r, traverse fuel (range 2 10 3) = Some r -> r = Ok [2; 5]).
  { intros fuel r Hr.
    assert (E : range 2 10 3 = Ok (wrap (RangeIterator 2 3) (RangeIterator 8 3)))
      by (apply range_ok; int_bounds; lia).
    rewrite E in Hr, H3. cbn [traverse] in Hr, H3.
    pose proof (@loop_more_fuel (EasyIterator Z Z) fuel 3 _ _ r Hr) as Hr'.
    pose proof (@loop_more_fuel (EasyIterator Z Z) 3 fuel _ _ _ H3) as H3'.
    rewrite (Nat.add_comm fuel 3) in Hr'. congruence. }
  split; [exact H3 | split].
  - intros fuel Hf. apply Hall in Hf. discriminate.
  - intros fuel l Hl. apply Hall in Hl. injection Hl as ->. vm_compute. discriminate.
Qed.




(** C8: advancing a live range cursor adds the increment to the held value
    and returns a live range cursor with the same increment; its [advance]
    never stores an absent value, so after any number of advances the cursor
    is still live.  Started at an [int] value, after [n] advances it holds
    [start + n * increment] reduced to [int], which is [start + n * increment]
    itself whenever that is an [int] value. *)
Theorem range_cursor_stays_live (v s : Z) (n : nat) :
  operator_inc (RangeIterator v s) = (Ok tt, RangeIterator (Int.add v s) s) /\
  (forall c, advance (RangeIterator v s) (Some c) = Ok (Some (Int.add c s))) /\
  advances (EasyIterator Z Z) n (RangeIterator v s)
  = Ok (RangeIterator (Nat.iter n (fun x => Int.add x s) v) s) /\
  operator_bool (RangeIterator (Nat.iter n (fun x => Int.add x s) v) s) = true /\
  (Int.in_range v ->
     advances (EasyIterator Z Z) n (RangeIterator v s)
     = Ok (RangeIterator (Int.wrap (v + Z.of_nat n * s)) s)) /\
  (Int.in_range v -> Int.in_range (v + Z.of_nat n * s) ->
     exists it,
       advances (EasyIterator Z Z) n (RangeIterator v s) = Ok it /\
       current it = Some (v + Z.of_nat n * s) /\
       operator_bool it = true) /\
  (Int.in_range v -> Int.in_range (v + s) ->
     exists it,
       operator_inc (RangeIterator v s) = (Ok tt, it) /\
       current it = Some (v + s)).
Proof.
  split; [reflexivity |]. split; [reflexivity |].
  split; [apply advances_range_iter |]. split; [reflexivity |].
  assert (Hclosed : Int.in_range v ->
            advances (EasyIterator Z Z) n (RangeIterator v s)
            = Ok (RangeIterator (Int.wrap (v + Z.of_nat n * s)) s)).
  { intros Hv. rewrite advances_range_iter, iter_add_closed by exact Hv.
    reflexivity. }
  split; [exact Hclosed |]. split.
  - intros Hv Hr. eexists. split; [apply Hclosed; exact Hv |].
    cbn [RangeIterator current operator_bool]. rewrite (wrap_in_range Hr).
    split; reflexivity.
  - intros Hv Hr. eexists. split; [reflexivity |].
    cbn [RangeIterator current]. unfold Int.add. rewrite (wrap_in_range Hr).
    reflexivity.
Qed.

Lemma range_cursor_stays_live_witness :
  exists it,
    advances (EasyIterator Z Z) 4 (RangeIterator 2 3) = Ok it /\
    current it = Some (2 + Z.of_nat 4 * 3) /\
    operator_bool it = true.
Proof.
  refine (proj1 (proj2 (proj2 (proj2 (proj2 (proj2
            (@range_cursor_stays_live 2 3 4)))))) _ _); int_bounds; lia.
Defined.

(** C9: [range(begin, end)] is [range(begin, end, 1)] and [range(end)] is
    [range(0, end)], so their traversals coincide; [range(end)] for a
    non-negative [int] yields [0, 1, ..., end-1], and [range(5)] yields
    [[0,1,2,3,4]]. *)
Theorem range_defaults (b e : Z) (fuel : nat) :
  range2 b e = range b e 1 /\
  range1 e = range2 0 e /\
  traverse fuel (range2 b e) = traverse fuel (range b e 1) /\
  traverse fuel (range1 e) = traverse fuel (range2 0 e) /\
  (0 <= e -> Int.in_range e -> (Z.to_nat e < fuel)%nat ->
     traverse fuel (range1 e) = Some (Ok (progression 0 1 (Z.to_nat e)))) /\
  traverse 6 (range1 5) = Some (Ok [0; 1; 2; 3; 4]).
Proof.
  repeat (split; [reflexivity |]). split.
  - intros H0 He Hf. unfold range1, range2.
    assert (Hf' : (Z.to_nat ((e - 0) ÷ 1) < fuel)%nat)
      by (rewrite Z.quot_1_r, Z.sub_0_r; exact Hf).
    rewrite (@traverse_range 0 e 1 fuel); try (int_bounds; lia); try exact Hf'.
    rewrite Z.quot_1_r, Z.sub_0_r. reflexivity.
  - vm_compute. reflexivity.
Qed.

Lemma range_defaults_witness :
  traverse 6 (range1 5) = Some (Ok (progression 0 1 5)).
Proof.
  refine (proj1 (proj2 (proj2 (proj2 (proj2 (@range_defaults 0 5 6))))) _ _ _).
  - lia.
  - int_bounds; lia.
  - vm_compute. lia.
Defined.

(** ** The cursor *)

(** C5: equality of two cursors is decided by liveness first: both exhausted
    gives true, exactly one exhausted gives false, and only two live cursors
    reach the comparison strategy, whose result is returned.  An exhausted
    side therefore gives its answer for every comparison strategy, also one
    that would not return. *)
Theorem equality_by_liveness (T U : Type) (this other : Iterator T U) :
  operator_eq this other
  = match current this, current other with
    | None, None => Ok true
    | None, Some _ => Ok false
    | Some _, None => Ok false
    | Some a, Some b => compare this a b
    end /\
  (forall (d : T -> outcome U) cmp adv,
     operator_eq (mkIterator d cmp None adv) other
     = Ok (negb (operator_bool other))) /\
  (forall (d d' : T -> outcome U) cmp adv a cmp' adv',
     operator_eq (mkIterator d cmp (Some a) adv) (mkIterator d' cmp' None adv')
     = Ok false).
Proof.
  split; [| split].
  - unfold operator_eq, operator_bool.
    destruct (current this), (current other); reflexivity.
  - reflexivity.
  - reflexivity.
Qed.




(** C4, as the code has it: dereferencing an exhausted cursor throws
    [UndefinedIteratorException], and does so again on every further
    attempt; a live cursor never takes that branch nor reads an absent
    value: it returns what its dereference strategy returns.  No other
    operation throws: equality and advance throw only if the comparison
    strategy or the advance operation they call does, and [range] never
    throws.  Equality returns whenever the comparison strategy returns, and
    for every strategy when one side is exhausted.  Advance returns on a
    live range or [ByValue] cursor and on a tuple whose elements advance; on
    an exhausted cursor with the [ByValue] increment it reads the absent
    value, which is not defined.  [range] returns for [int] operands and a
    nonzero step other than the division [INT_MIN % -1]. *)
Theorem dereference_is_the_only_throw (T U : Type) (this other : Iterator T U)
    (n : nat) :
  (current this = None ->
     fst (operator_star this) = Throw UndefinedIteratorException /\
     fst (operator_star (Nat.iter n (fun it => snd (operator_star it)) this))
     = Throw UndefinedIteratorException) /\
  (forall v, current this = Some v ->
     fst (operator_star this) = dereferencer this v) /\
  ((forall a b, exists r, compare this a b = Ok r) ->
     exists r, operator_eq this other = Ok r) /\
  (current this = None \/ current other = None ->
     exists r, operator_eq this other = Ok r) /\
  (forall ex, (forall a b, compare this a b <> Throw ex) ->
     operator_eq this other <> Throw ex) /\
  (forall ex, (forall o, advance this o <> Throw ex) ->
     fst (operator_inc this) <> Throw ex) /\
  (forall v s : Z, exists it,
     operator_inc (RangeIterator v s) = (Ok tt, it) /\ operator_bool it = true) /\
  (forall A v, exists c, increment.ByValue A (Some v) = Ok (Some c)) /\
  (forall ks (t t' : tuple ks),
     tuple_rel (fun k a a' => it_inc k a = Ok a') ks t t' ->
     operator_inc (zip_cursor ks t) = (Ok tt, zip_cursor ks t')) /\
  (forall (A : Z) (d : Z -> outcome U) (c : Z -> Z -> outcome bool),
     fst (operator_inc (CallbackIterator None (increment.ByValue A) d c))
     = Undefined) /\
  (forall b e s : Z,
     Int.in_range b -> Int.in_range e -> Int.in_range s ->
     s <> 0 -> ~ (Int.sub e b = Int.min_int /\ s = -1) ->
     exists w, range b e s = Ok w) /\
  (forall (b e s : Z) ex, range b e s <> Throw ex).
Proof.
  split; [| split; [| split; [| split; [| split; [| split; [| split;
    [| split; [| split; [| split; [| split]]]]]]]]]].
  - intros Hnone.
    assert (Hthrow : fst (operator_star this) = Throw UndefinedIteratorException).
    { unfold operator_star, operator_bool. rewrite Hnone. reflexivity. }
    split; [exact Hthrow |].
    replace (Nat.iter n (fun it => snd (operator_star it)) this) with this;
      [exact Hthrow |].
    induction n as [| m IH]; [reflexivity |].
    rewrite Nat.iter_succ, <- IH. symmetry. apply star_state.
  - intros v Hv. unfold operator_star, operator_bool. rewrite Hv. reflexivity.
  - intros Htotal. unfold operator_eq, operator_bool.
    destruct (current this) as [a |], (current other) as [b |]; cbn;
      try (eexists; reflexivity).
    apply Htotal.
  - unfold operator_eq, operator_bool.
    intros [Hn | Hn]; rewrite Hn.
    + cbn. eexists. reflexivity.
    + destruct (current this); cbn; eexists; reflexivity.
  - intros ex Hcmp. unfold operator_eq, operator_bool.
    destruct (current this) as [a |], (current other) as [b |]; cbn;
      try discriminate.
    apply Hcmp.
  - intros ex Hadv. unfold operator_inc.
    destruct (advance this (current this)) as [c | ex' |] eqn:E; cbn [fst];
      try discriminate.
    intros H. injection H as ->. exact (Hadv _ E).
  - intros v s. exists (RangeIterator (Int.add v s) s). split; reflexivity.
  - intros A v. eexists. reflexivity.
  - intros ks t t' Hrel. apply tuple_increment_steps in Hrel.
    rewrite zip_cursor_inc, Hrel. reflexivity.
  - reflexivity.
  - intros b e s _ _ _ Hs Hnt. rewrite (@range_ok_int b e s Hs Hnt). eexists. reflexivity.
  - intros b e s ex. unfold range, Int.rem.
    destruct (s =? 0); [discriminate |].
    destruct ((Int.sub e b =? Int.min_int) && (s =? -1)); discriminate.
Qed.

Lemma dereference_is_the_only_throw_witness :
  fst (operator_star (CallbackIterator (@None Z) (increment.ByValue 1)
                        dereference.ByValue compare.ByValue))
  = Throw UndefinedIteratorException.
Proof.
  exact (proj1 (proj1 (@dereference_is_the_only_throw Z Z
           (CallbackIterator None (increment.ByValue 1) dereference.ByValue compare.ByValue)
           (RangeIterator 0 1) 2) eq_refl)).
Defined.

(** C4 fails as stated: dereference is not the only operation that fails.
    Advancing an exhausted cursor with the [ByValue<1>] increment reads the
    absent value, and [range(7, INT_MIN+7, -1)], whose step is not zero,
    divides [INT_MIN] by -1. *)
Lemma advance_and_range_can_fail :
  fst (operator_inc (CallbackIterator (@None Z) (increment.ByValue 1)
                       dereference.ByValue compare.ByValue)) = Undefined /\
  Int.in_range 7 /\ Int.in_range (Int.min_int + 7) /\ Int.in_range (-1) /\
  -1 <> 0 /\
  range 7 (Int.min_int + 7) (-1) = Undefined.
Proof.
  split; [reflexivity |].
  split; [int_bounds; lia |]. split; [int_bounds; lia |].
  split; [int_bounds; lia |]. split; [lia |].
  vm_compute. reflexivity.
Qed.

(** C6, as the code has it: advance can be repeated on a live range cursor
    or a live cursor with the [ByValue] increment, which stay live.  On an
    exhausted cursor [operator++] hands the absent value to the advance
    operation without a guard: the cursor afterwards holds whatever that
    operation stored, and stays exhausted exactly when the operation leaves
    an absent value absent; the advance of [RangeIterator] and
    [increment::ByValue] read the absent value, which is not defined. *)
Theorem advance_is_unguarded (T U : Type)
    (cb : option T -> outcome (option T)) (d : T -> outcome U)
    (c : T -> T -> outcome bool) (n : nat) (v s : Z) :
  (exists it, advances (EasyIterator Z Z) n (RangeIterator v s) = Ok it /\
              operator_bool it = true) /\
  (exists x, operator_inc (CallbackIterator (Some v) (increment.ByValue s)
                             dereference.ByValue compare.ByValue)
             = (Ok tt, CallbackIterator (Some x) (increment.ByValue s)
                         dereference.ByValue compare.ByValue)) /\
  operator_inc (CallbackIterator None cb d c)
  = match cb None with
    | Ok c' => (Ok tt, CallbackIterator c' cb d c)
    | Throw e => (Throw e, CallbackIterator None cb d c)
    | Undefined => (Undefined, CallbackIterator None cb d c)
    end /\
  (cb None = Ok None ->
     advances (EasyIterator T U) n (CallbackIterator None cb d c)
     = Ok (CallbackIterator None cb d c)) /\
  increment.ByValue s None = Undefined /\
  advance (RangeIterator v s) None = Undefined.
Proof.
  split; [| split; [| split; [| split; [| split]]]]; try reflexivity.
  - eexists. split; [apply advances_range_iter | reflexivity].
  - eexists. reflexivity.
  - intros Hcb. induction n as [| m IH]; [reflexivity |].
    cbn [advances]. cbn [it_inc EasyIterator].
    unfold operator_inc at 1 2. cbn [CallbackIterator advance current].
    rewrite Hcb. cbn [fst snd bind]. exact IH.
Qed.

Lemma advance_is_unguarded_witness :
  advances (EasyIterator Z Z) 3
    (CallbackIterator None (fun _ : option Z => Ok None) dereference.ByValue compare.ByValue)
  = Ok (CallbackIterator None (fun _ : option Z => Ok None) dereference.ByValue compare.ByValue).
Proof.
  exact (proj1 (proj2 (proj2 (proj2
           (@advance_is_unguarded Z Z (fun _ => Ok None) dereference.ByValue
              compare.ByValue 3 0 1)))) eq_refl).
Defined.

(** C6 fails as stated: on an exhausted cursor with the [ByValue<1>]
    increment the advance reads the absent value, and on an exhausted cursor
    whose callback stores a value the advance returns a live cursor. *)
Lemma advance_on_exhausted_cursor :
  fst (operator_inc (CallbackIterator (@None Z) (increment.ByValue 1)
                       dereference.ByValue compare.ByValue)) = Undefined /\
  (exists it,
     operator_inc (CallbackIterator (@None Z) (fun _ => Ok (Some 0))
                     dereference.ByValue compare.ByValue) = (Ok tt, it) /\
     operator_bool it = true) /\
  ~ (forall it : Iterator Z Z,
       operator_bool it = false ->
       exists it', operator_inc it = (Ok tt, it') /\ operator_bool it' = false).
Proof.
  split; [reflexivity |]. split.
  - eexists. split; reflexivity.
  - intros H.
    destruct (H (CallbackIterator None (fun _ => Ok (Some 0))
                   dereference.ByValue compare.ByValue) eq_refl)
      as [it' [Hinc Hlive]].
    injection Hinc as <-. discriminate.
Qed.


(** ** [zip] and [enumerate] *)

(** C3: the cursors of [zip] hold the tuples of the arguments' [begin()]
    and [end()] iterators.  Advancing one advances every element of its
    tuple exactly once; dereferencing yields what the elements point to, in
    argument order; two of them are equal exactly when their last elements
    are.  For two vectors, the first at least as long as the second, the
    traversal yields the pairs of their elements up to the length of the
    second: [zip([10,20,30], ['a','b','c'])] yields three pairs and
    [zip([10,20,30], ['a','b'])] two. *)
Theorem zip_lockstep_until_last_ends :
  (forall args : list Sequence,
     beginIterator (zip args) = zip_cursor (map seq_type args) (begins args) /\
     endIterator (zip args) = zip_cursor (map seq_type args) (ends args)) /\
  (forall ks (t t' : tuple ks),
     tuple_rel (fun k a a' => it_inc k a = Ok a') ks t t' <->
     operator_inc (zip_cursor ks t) = (Ok tt, zip_cursor ks t')) /\
  (forall ks (t : tuple ks) (x : value_tuple ks),
     fst (operator_star (zip_cursor ks t)) = Ok x <-> tuple_points ks t x) /\
  (forall k ks (t e : tuple (k :: ks)),
     operator_eq (zip_cursor (k :: ks) t) (zip_cursor (k :: ks) e)
     = it_eq (last_type k ks) (tuple_last k ks t) (tuple_last k ks e)) /\
  (forall (s1 s2 : Sequence) (a1 : iter (seq_type s1)) (a2 : iter (seq_type s2)),
     operator_eq (zip_cursor [seq_type s1; seq_type s2] (a1, (a2, tt)))
                 (endIterator (zip [s1; s2]))
     = it_eq (seq_type s2) a2 (seq_end s2)) /\
  (forall (A B : Type) (la : list A) (lb : list B) (fuel : nat),
     (List.length lb <= List.length la)%nat -> (List.length lb < fuel)%nat ->
     for_range fuel (Wrapped (zip [Vector la; Vector lb]))
     = Some (Ok (paired la lb)) /\
     List.length (paired la lb) = List.length lb) /\
  for_range 4 (Wrapped (zip [Vector [10; 20; 30]; Vector ["a"; "b"; "c"]%char]))
  = Some (Ok [(10, ("a"%char, tt)); (20, ("b"%char, tt)); (30, ("c"%char, tt))]) /\
  for_range 4 (Wrapped (zip [Vector [10; 20; 30]; Vector ["a"; "b"]%char]))
  = Some (Ok [(10, ("a"%char, tt)); (20, ("b"%char, tt))]).
Proof.
  split; [| split; [| split; [| split; [| split; [| split; [| split]]]]]].
  - intros args. split; reflexivity.
  - intros ks t t'. rewrite <- tuple_increment_steps, zip_cursor_inc. split.
    + intros ->. reflexivity.
    + destruct (increment.getReferenceTuple ks t) as [t1 | |]; try discriminate.
      intros H. injection H as H. congruence.
  - intros ks t x. rewrite zip_cursor_star. apply tuple_dereference_points.
  - intros k ks t e. rewrite zip_cursor_eq. apply last_element_match.
  - reflexivity.
  - intros A B la lb fuel Hle Hf. split; [| apply paired_length; exact Hle].
    exact (@loop_zip_vectors A B la lb (List.length lb) 0 fuel eq_refl Hle Hf).
  - vm_compute. reflexivity.
  - vm_compute. reflexivity.
Qed.

Lemma zip_lockstep_until_last_ends_witness :
  for_range 3 (Wrapped (zip [Vector [10; 20; 30]; Vector ["a"; "b"]%char]))
  = Some (Ok (paired [10; 20; 30] ["a"; "b"]%char)).
Proof.
  refine (proj1 (proj1 (proj2 (proj2 (proj2 (proj2 (proj2
            zip_lockstep_until_last_ends)))))
            Z ascii [10; 20; 30] ["a"; "b"]%char 3%nat _ _)).
  - vm_compute. lia.
  - vm_compute. lia.
Defined.


(** C7, as the code has it: [enumerate(sequence)] is [zip] of an index pair
    and the sequence, the sequence last.  Both cursors of the index pair hold
    0 and advance by 1; they are compared by value, a comparison the [zip]
    cursors never consult, since their equality is that of the sequence's
    own iterators.  So the traversal ends where the sequence's own traversal
    ends and yields [[index, value]] for each of its elements, counting from
    0 (for at most 2^31 elements); [enumerate(['x','y','z'])] yields
    [[(0,'x'),(1,'y'),(2,'z')]]. *)
Theorem enumerate_follows_sequence (t : Sequence) (fuel : nat) :
  enumerate t = zip [Wrapped (wrap (RangeIterator 0 1) (RangeIterator 0 1)); t] /\
  beginIterator (enumerate t)
  = zip_cursor [EasyIterator Z Z; seq_type t] (RangeIterator 0 1, (seq_begin t, tt)) /\
  endIterator (enumerate t)
  = zip_cursor [EasyIterator Z Z; seq_type t] (RangeIterator 0 1, (seq_end t, tt)) /\
  operator_eq (RangeIterator 0 1) (RangeIterator 0 1) = Ok true /\
  (forall (i j : Iterator Z Z) (a b : iter (seq_type t)),
     operator_eq (zip_cursor [EasyIterator Z Z; seq_type t] (i, (a, tt)))
                 (zip_cursor [EasyIterator Z Z; seq_type t] (j, (b, tt)))
     = it_eq (seq_type t) a b) /\
  (forall xs,
     for_range fuel t = Some (Ok xs) ->
     Z.of_nat (List.length xs) <= Int.max_int + 1 ->
     for_range fuel (Wrapped (enumerate t)) = Some (Ok (indexed 0 xs))) /\
  (for_range fuel t = None -> for_range fuel (Wrapped (enumerate t)) = None) /\
  for_range 4 (Wrapped (enumerate (Vector ["x"; "y"; "z"]%char)))
  = Some (Ok [(0, ("x"%char, tt)); (1, ("y"%char, tt)); (2, ("z"%char, tt))]).
Proof.
  assert (Hloop : for_range fuel (Wrapped (enumerate t))
                  = match for_range fuel t with
                    | Some (Ok xs) => Some (Ok (indexed_int 0 xs))
                    | Some (Throw ex) => Some (Throw ex)
                    | Some Undefined => Some Undefined
                    | None => None
                    end).
  { exact (loop_enumerate (seq_type t) (seq_end t) 0 fuel (seq_begin t) 0). }
  repeat (split; [reflexivity |]). split; [| split].
  - intros xs Hxs Hlen. rewrite Hloop, Hxs.
    rewrite indexed_int_plain; [reflexivity | int_bounds; lia | lia].
  - intros Hnone. rewrite Hloop, Hnone. reflexivity.
  - vm_compute. reflexivity.
Qed.

Lemma enumerate_follows_sequence_witness :
  for_range 4 (Wrapped (enumerate (Vector ["x"; "y"; "z"]%char)))
  = Some (Ok (indexed 0 ["x"; "y"; "z"]%char)).
Proof.
  refine (proj1 (proj2 (proj2 (proj2 (proj2 (proj2
            (@enumerate_follows_sequence (Vector ["x"; "y"; "z"]%char) 4))))))
            ["x"; "y"; "z"]%char _ _).
  - vm_compute. reflexivity.
  - vm_compute. discriminate.
Defined.

(** C7 fails as stated: the index cursor of [enumerate] is compared by
    value, not by [Never], and it equals its own end cursor from the start,
    so that on its own the index pair is traversed in zero steps. *)
Lemma enumerate_index_pair_is_empty :
  exists (i j : Iterator Z Z) (r r' : VectorIterator ascii * unit),
    current (beginIterator (enumerate (Vector ["x"; "y"; "z"]%char))) = Some (i, r) /\
    current (endIterator (enumerate (Vector ["x"; "y"; "z"]%char))) = Some (j, r') /\
    operator_eq i j = Ok true /\
    compare i 0 0 = Ok true /\
    compare i 0 0 <> compare.Never 0 0 /\
    for_range 1 (Wrapped (wrap i j)) = Some (Ok []).
Proof.
  exists (RangeIterator 0 1), (RangeIterator 0 1).
  eexists. eexists.
  split; [reflexivity |]. split; [reflexivity |]. split; [reflexivity |].
  split; [reflexivity |]. split; [discriminate | reflexivity].
Qed.


(** * Further properties *)

(** ** Equality by value *)

(** X1: with [compare::ByValue] over a type whose [==] decides equality,
    [operator==] always returns, and it returns true exactly when the two
    cursors hold the same optional value: both absent, or the same value.
    The dereference strategy and the advance operation of the two cursors
    play no part. *)
Theorem by_value_equality_iff (T U : Type) (E : EqOp T) (a b : Iterator T U) :
  (forall x y : T, op_eq x y = true <-> x = y) ->
  compare a = compare.ByValue ->
  (exists r, operator_eq a b = Ok r) /\
  (operator_eq a b = Ok true <-> current a = current b).
Proof.
  intros Hdec Hcmp. unfold operator_eq, operator_bool. rewrite Hcmp.
  destruct (current a) as [x |], (current b) as [y |];
    cbn [negb opt_star bind compare.ByValue].
  - split; [eexists; reflexivity |]. split.
    + unfold compare.ByValue. intros H. injection H as H.
      apply Hdec in H. congruence.
    + intros H. injection H as ->. unfold compare.ByValue. f_equal.
      apply Hdec. reflexivity.
  - split; [eexists; reflexivity |]. split; discriminate.
  - split; [eexists; reflexivity |]. split; discriminate.
  - split; [eexists; reflexivity |]. split; reflexivity.
Qed.

Lemma by_value_equality_iff_witness :
  operator_eq (RangeIterator 3 1) (RangeIterator 3 5) = Ok true <->
  current (RangeIterator 3 1) = current (RangeIterator 3 5).
Proof.
  refine (proj2 (@by_value_equality_iff Z Z EqOp_int (RangeIterator 3 1)
                   (RangeIterator 3 5) _ eq_refl)).
  intros x y. exact (Z.eqb_eq x y).
Defined.

(** ** Range cursors *)

(** X2: a range cursor started at an [int] value and advanced [n] times
    holds [start + n * increment] reduced to [int], and its dereference
    returns that value: the cursor never skips or repeats a step. *)
Theorem range_cursor_closed_form (v s : Z) (n : nat) :
  Int.in_range v ->
  advances (EasyIterator Z Z) n (RangeIterator v s)
  = Ok (RangeIterator (Int.wrap (v + Z.of_nat n * s)) s) /\
  (forall it, advances (EasyIterator Z Z) n (RangeIterator v s) = Ok it ->
     fst (operator_star it) = Ok (Int.wrap (v + Z.of_nat n * s))).
Proof.
  intros Hv.
  assert (H : advances (EasyIterator Z Z) n (RangeIterator v s)
              = Ok (RangeIterator (Int.wrap (v + Z.of_nat n * s)) s)).
  { rewrite advances_range_iter, iter_add_closed by exact Hv. reflexivity. }
  split; [exact H |].
  intros it Hit. rewrite H in Hit. injection Hit as <-. reflexivity.
Qed.

Lemma range_cursor_closed_form_witness :
  advances (EasyIterator Z Z) 4 (RangeIterator 2 3)
  = Ok (RangeIterator (Int.wrap (2 + Z.of_nat 4 * 3)) 3).
Proof.
  refine (proj1 (@range_cursor_closed_form 2 3 4 _)).
  int_bounds. lia.
Defined.

(** X3: [range] is empty whenever the distance from [begin] to [end] is
    smaller than the step, in either direction: the remainder is the whole
    distance, the end cursor holds [begin] itself, and the loop stops before
    its first read.  So [range(0,2,3)] yields nothing although 0 < 2. *)
Theorem range_shorter_than_step_is_empty (b e s : Z) (fuel : nat) :
  Int.in_range b -> Int.in_range e -> Int.in_range (e - b) ->
  Z.abs (e - b) < Z.abs s ->
  range b e s = Ok (wrap (RangeIterator b s) (RangeIterator b s)) /\
  traverse (S fuel) (range b e s) = Some (Ok []).
Proof.
  intros Hb He Hd Hlt.
  assert (Hs : s <> 0) by lia.
  assert (Hrem : Z.rem (e - b) s = e - b) by (apply Z.rem_small_iff; assumption).
  assert (Hr : range b e s = Ok (wrap (RangeIterator b s) (RangeIterator b s))).
  { rewrite (range_ok Hs Hb He Hd) by (int_bounds; lia).
    rewrite Hrem. do 3 f_equal. lia. }
  split; [exact Hr |].
  rewrite Hr. cbn [traverse wrap beginIterator endIterator loop]. unfold it_ne.
  change (it_eq (EasyIterator Z Z)) with (@operator_eq Z Z).
  rewrite range_eq, Z.eqb_refl. reflexivity.
Qed.

Lemma range_shorter_than_step_is_empty_witness :
  traverse 1 (range 0 2 3) = Some (Ok []).
Proof.
  refine (proj2 (@range_shorter_than_step_is_empty 0 2 3 0 _ _ _ _));
    int_bounds; lia.
Defined.

Lemma loop_range_runs_on (fuel : nat) :
  forall b a s : Z,
    a < b -> 0 < s -> Int.in_range b ->
    b + (Z.of_nat fuel - 1) * s <= Int.max_int ->
    loop (EasyIterator Z Z) fuel (RangeIterator b s) (RangeIterator a s) = None.
Proof.
  induction fuel as [| fuel IH]; intros b a s Hab Hs Hb Hmax; [reflexivity |].
  cbn [loop]. unfold it_ne.
  change (it_eq (EasyIterator Z Z)) with (@operator_eq Z Z).
  rewrite range_eq.
  destruct (Z.eqb_spec b a) as [E | _]; [lia |]. cbn [bind negb].
  change (it_star (EasyIterator Z Z) (RangeIterator b s)) with (@Ok Z b).
  rewrite range_it_inc.
  destruct fuel as [| fuel']; [reflexivity |].
  assert (Hin : Int.in_range (b + s)) by (int_bounds; nia).
  unfold Int.add. rewrite (wrap_in_range Hin).
  rewrite IH; [reflexivity | lia | assumption | assumption |].
  rewrite Nat2Z.inj_succ in *. lia.
Qed.

(** X4: [range] does not check the direction of its step.  With a positive
    step and [end] at least one step below [begin], the end cursor lies
    below [begin] and the begin cursor moves away from it: the loop is still
    running after every number of iterations that keeps the cursor within
    [int]. *)
Theorem range_wrong_direction_runs_on (b e s : Z) (fuel : nat) :
  Int.in_range b -> Int.in_range e -> Int.in_range (e - b) ->
  0 < s -> s <= b - e ->
  b + (Z.of_nat fuel - 1) * s <= Int.max_int ->
  traverse fuel (range b e s) = None.
Proof.
  intros Hb He Hd Hs Hdist Hmax.
  assert (Hs0 : s <> 0) by lia.
  rewrite (range_ok Hs0 Hb He Hd) by lia.
  cbn [traverse wrap beginIterator endIterator].
  apply loop_range_runs_on; try assumption.
  pose proof (Z.rem_bound_pos_neg (e - b) s Hs ltac:(lia)). lia.
Qed.

Lemma range_wrong_direction_runs_on_witness :
  traverse 1000 (range 10 2 3) = None.
Proof.
  refine (@range_wrong_direction_runs_on 10 2 3 1000 _ _ _ _ _ _);
    int_bounds; lia.
Defined.


(** ** Callback cursors *)

(** X5: a counting cursor bound to [compare::Never] equals no end cursor,
    live or exhausted, at any time: the loop over it is still running after
    every number of iterations. *)
Theorem never_compared_cursor_runs_on (v A : Z) (e : Iterator Z Z) (fuel : nat) :
  loop (EasyIterator Z Z) fuel
    (CallbackIterator (Some v) (increment.ByValue A) dereference.ByValue
       compare.Never) e
  = None.
Proof.
  revert v. induction fuel as [| fuel IH]; intros v; [reflexivity |].
  cbn [loop]. unfold it_ne. cbn [it_eq it_star it_inc EasyIterator].
  assert (Heq : operator_eq
                  (CallbackIterator (Some v) (increment.ByValue A)
                     dereference.ByValue compare.Never) e = Ok false).
  { unfold operator_eq, operator_bool. cbn [CallbackIterator current negb].
    destruct (current e); reflexivity. }
  rewrite Heq. cbn [bind negb].
  change (fst (operator_star
                 (CallbackIterator (Some v) (increment.ByValue A)
                    dereference.ByValue compare.Never)))
    with (@Ok Z v).
  change (operator_inc
            (CallbackIterator (Some v) (increment.ByValue A)
               dereference.ByValue compare.Never))
    with (@Ok unit tt,
          CallbackIterator (Some (Int.add v A)) (increment.ByValue A)
            (@dereference.ByValue Z) (@compare.Never Z)).
  cbn [fst snd bind]. rewrite IH. reflexivity.
Qed.

Lemma callback_inc (T U : Type) (o : option T)
    (cb : option T -> outcome (option T)) (d : T -> outcome U)
    (c : T -> T -> outcome bool) :
  operator_inc (CallbackIterator o cb d c)
  = match cb o with
    | Ok o' => (Ok tt, CallbackIterator o' cb d c)
    | Throw ex => (Throw ex, CallbackIterator o cb d c)
    | Undefined => (Undefined, CallbackIterator o cb d c)
    end.
Proof. reflexivity. Qed.

Lemma callback_eq_exhausted (T U : Type) (o : option T)
    (cb : option T -> outcome (option T)) (d : T -> outcome U)
    (c : T -> T -> outcome bool) (e : Iterator T U) :
  current e = None ->
  operator_eq (CallbackIterator o cb d c) e
  = Ok (match o with Some _ => false | None => true end).
Proof.
  intros He. unfold operator_eq, operator_bool. cbn [CallbackIterator current].
  rewrite He. destruct o; reflexivity.
Qed.

(** X6: a callback cursor whose callback resets the held value ends the
    iteration: looped against any exhausted end cursor it yields the start
    value and every value the callback produced before the reset, and the
    comparison strategy is never reached (it may be any function); started
    exhausted it yields nothing. *)
Theorem callback_reset_ends_iteration (T : Type)
    (cb : option T -> outcome (option T)) (c : T -> T -> outcome bool)
    (e : Iterator T T) (v : T) (vs : list T) (fuel : nat) :
  current e = None ->
  generates cb v vs ->
  (List.length vs + 1 < fuel)%nat ->
  loop (EasyIterator T T) fuel (CallbackIterator (Some v) cb dereference.ByValue c) e
  = Some (Ok (v :: vs)) /\
  loop (EasyIterator T T) fuel (CallbackIterator None cb dereference.ByValue c) e
  = Some (Ok []).
Proof.
  intros He Hgen Hf.
  assert (Hend : forall fuel', (0 < fuel')%nat ->
            loop (EasyIterator T T) fuel'
              (CallbackIterator None cb dereference.ByValue c) e = Some (Ok [])).
  { intros [| fuel'] H0; [lia |]. cbn [loop]. unfold it_ne.
    cbn [it_eq EasyIterator]. rewrite (callback_eq_exhausted _ _ _ _ _ He).
    reflexivity. }
  split; [| apply Hend; lia].
  revert v fuel Hgen Hf. induction vs as [| v' vs IH]; intros v fuel Hgen Hf;
    (destruct fuel as [| fuel]; [lia |]);
    cbn [loop]; unfold it_ne; cbn [it_eq it_star it_inc EasyIterator];
    rewrite (callback_eq_exhausted _ _ _ _ _ He); cbn [bind negb];
    change (fst (operator_star (CallbackIterator (Some v) cb dereference.ByValue c)))
      with (@Ok T v);
    rewrite callback_inc; cbn [generates] in Hgen.
  - rewrite Hgen. cbn [fst snd bind].
    rewrite Hend by (cbn [List.length] in Hf; lia). reflexivity.
  - destruct Hgen as [Hstep Hrest]. rewrite Hstep. cbn [fst snd bind].
    rewrite (IH v' fuel Hrest) by (cbn [List.length] in Hf; lia). reflexivity.
Qed.

Lemma callback_reset_ends_iteration_witness :
  let countdown := fun o : option Z =>
    match o with
    | Some x => if x =? 1 then Ok None else Ok (Some (x - 1))
    | None => Ok None
    end in
  loop (EasyIterator Z Z) 5
    (CallbackIterator (Some 3) countdown dereference.ByValue (fun _ _ => Undefined))
    (CallbackIterator None countdown dereference.ByValue (fun _ _ => Undefined))
  = Some (Ok [3; 2; 1]).
Proof.
  intros countdown.
  refine (proj1 (@callback_reset_ends_iteration Z countdown (fun _ _ => Undefined)
            (CallbackIterator None countdown dereference.ByValue
               (fun _ _ => Undefined))
            3 [2; 1] 5 eq_refl _ _)).
  - cbn. repeat split.
  - cbn. lia.
Defined.


(** ** [zip] of any number of sequences *)

Lemma tuple_increment_cons (k : IteratorType) (ks : list IteratorType)
    (a : iter k) (r : tuple ks) :
  increment.getReferenceTuple (k :: ks) ((a, r) : tuple (k :: ks))
  = (a1 <- it_inc k a ;; r1 <- increment.getReferenceTuple ks r ;; Ok (a1, r1)).
Proof. reflexivity. Qed.

Lemma tuple_dereference_cons (k : IteratorType) (ks : list IteratorType)
    (a : iter k) (r : tuple ks) :
  dereference.getReferenceTuple (k :: ks) ((a, r) : tuple (k :: ks))
  = (y1 <- it_star k a ;; r1 <- dereference.getReferenceTuple ks r ;; Ok (y1, r1)).
Proof. reflexivity. Qed.

Lemma tuple_increment_last (ks : list IteratorType) :
  forall (k : IteratorType) (t t' : tuple (k :: ks)),
    increment.getReferenceTuple (k :: ks) t = Ok t' ->
    it_inc (last_type k ks) (tuple_last k ks t) = Ok (tuple_last k ks t').
Proof.
  induction ks as [| k' ks IH]; intros k [a r] [a' r'] H;
    rewrite tuple_increment_cons in H;
    destruct (it_inc k a) as [a1 | |] eqn:Ea; cbn [bind] in H;
    try discriminate; cbn [tuple_last last_type fst snd].
  - destruct r, r'. injection H as <-. exact Ea.
  - destruct (increment.getReferenceTuple (k' :: ks) r) as [r1 | |] eqn:E;
      cbn [bind] in H; try discriminate.
    injection H as -> ->. exact (IH k' r r' E).
Qed.

Lemma tuple_dereference_last (ks : list IteratorType) :
  forall (k : IteratorType) (t : tuple (k :: ks)) (x : value_tuple (k :: ks)),
    dereference.getReferenceTuple (k :: ks) t = Ok x ->
    it_star (last_type k ks) (tuple_last k ks t) = Ok (value_last k ks x).
Proof.
  induction ks as [| k' ks IH]; intros k [a r] [y ys] H;
    rewrite tuple_dereference_cons in H;
    destruct (it_star k a) as [y1 | |] eqn:Ea; cbn [bind] in H;
    try discriminate; cbn [tuple_last value_last last_type fst snd].
  - destruct ys. injection H as <-. exact Ea.
  - destruct (dereference.getReferenceTuple (k' :: ks) r) as [r1 | |] eqn:E;
      cbn [bind] in H; try discriminate.
    injection H as -> ->. exact (IH k' r ys E).
Qed.

(** X7: for any non-empty pack of sequences, a [zip] loop that ends has
    yielded exactly as many tuples as the loop over the last sequence's own
    iterators yields values, and the last elements of those tuples are these
    values in order; and a [zip] loop still running after [fuel] iterations
    means the last sequence's own loop is still running too.  The iterators
    of the earlier sequences are never compared with their ends. *)
Theorem zip_follows_last_sequence (k : IteratorType) (ks : list IteratorType)
    (e : tuple (k :: ks)) (fuel : nat) (t : tuple (k :: ks)) :
  (forall xs,
     loop (EasyIterator _ _) fuel (zip_cursor (k :: ks) t) (zip_cursor (k :: ks) e)
     = Some (Ok xs) ->
     loop (last_type k ks) fuel (tuple_last k ks t) (tuple_last k ks e)
     = Some (Ok (map (value_last k ks) xs))) /\
  (loop (EasyIterator _ _) fuel (zip_cursor (k :: ks) t) (zip_cursor (k :: ks) e)
   = None ->
   loop (last_type k ks) fuel (tuple_last k ks t) (tuple_last k ks e) = None).
Proof.
  revert t. induction fuel as [| fuel IH]; intros t.
  - split; [discriminate | reflexivity].
  - cbn [loop]. unfold it_ne. cbn [it_eq it_star it_inc EasyIterator].
    rewrite zip_cursor_eq, last_element_match, zip_cursor_star, zip_cursor_inc.
    destruct (it_eq (last_type k ks) (tuple_last k ks t) (tuple_last k ks e))
      as [[|] | |]; cbn [bind negb].
    + split; [| discriminate]. intros xs H. injection H as <-. reflexivity.
    + destruct (dereference.getReferenceTuple (k :: ks) t) as [x | |] eqn:Ex;
        try (split; [intros xs H | intros H]; discriminate).
      rewrite (@tuple_dereference_last ks k t x Ex).
      destruct (increment.getReferenceTuple (k :: ks) t) as [t' | |] eqn:Et;
        cbn [fst snd bind];
        try (split; [intros xs H | intros H]; discriminate).
      rewrite (@tuple_increment_last ks k t t' Et).
      destruct (IH t') as [IHok IHnone].
      destruct (loop (EasyIterator _ _) fuel (zip_cursor (k :: ks) t')
                  (zip_cursor (k :: ks) e)) as [[xs' | |] |].
      * split; [| discriminate]. intros xs H. injection H as <-.
        rewrite (IHok xs' eq_refl). reflexivity.
      * split; [intros xs H | intros H]; discriminate.
      * split; [intros xs H | intros H]; discriminate.
      * split; [discriminate |]. intros _. rewrite (IHnone eq_refl). reflexivity.
    + split; [intros xs H | intros H]; discriminate.
    + split; [intros xs H | intros H]; discriminate.
Qed.

Lemma zip_follows_last_sequence_witness :
  loop (StdVector ascii) 4
    (mkVectorIterator ["a"; "b"]%char 0) (mkVectorIterator ["a"; "b"]%char 2)
  = Some (Ok (map (value_last (StdVector Z) [StdVector bool; StdVector ascii])
                [(10, (true, ("a"%char, tt))); (20, (false, ("b"%char, tt)))])).
Proof.
  refine (proj1 (@zip_follows_last_sequence (StdVector Z)
                   [StdVector bool; StdVector ascii]
                   (ends [Vector [10; 20; 30]; Vector [true; false];
                          Vector ["a"; "b"]%char])
                   4
                   (begins [Vector [10; 20; 30]; Vector [true; false];
                            Vector ["a"; "b"]%char])) _ _).
  vm_compute. reflexivity.
Defined.


(** ** [zip] and [enumerate] over ranges *)

Lemma stepped_int_plain (A : Type) (s : Z) (xs : list A) :
  forall i,
    (forall m, (m < List.length xs)%nat -> Int.in_range (i + Z.of_nat m * s)) ->
    stepped_int i s xs = stepped i s xs.
Proof.
  induction xs as [| x xs IH]; intros i Hr; [reflexivity |].
  cbn [stepped_int stepped]. f_equal.
  destruct xs as [| y ys]; [reflexivity |].
  assert (Hadd : Int.add i s = i + s).
  { unfold Int.add. apply wrap_in_range.
    replace (i + s) with (i + Z.of_nat 1 * s) by lia. apply Hr. cbn. lia. }
  rewrite Hadd. apply IH. intros m Hm.
  replace (i + s + Z.of_nat m * s) with (i + Z.of_nat (S m) * s) by lia.
  apply Hr. cbn [List.length] in *. lia.
Qed.

(** The loop over [zip] of a range cursor and any iterator follows the loop
    over that iterator alone, whatever the range's end cursor holds. *)
Lemma loop_range_first (k : IteratorType) (e : iter k) (j s s' : Z) (fuel : nat) :
  forall (a : iter k) (i : Z),
    loop (EasyIterator _ _) fuel
      (zip_cursor [EasyIterator Z Z; k] (RangeIterator i s, (a, tt)))
      (zip_cursor [EasyIterator Z Z; k] (RangeIterator j s', (e, tt)))
    = match loop k fuel a e with
      | Some (Ok xs) => Some (Ok (stepped_int i s xs))
      | Some (Throw ex) => Some (Throw ex)
      | Some Undefined => Some Undefined
      | None => None
      end.
Proof.
  induction fuel as [| fuel IH]; intros a i; [reflexivity |].
  cbn [loop]. unfold it_ne. cbn [it_eq it_star it_inc EasyIterator].
  rewrite zip_cursor_eq, zip_cursor_star, zip_cursor_inc.
  cbn [compare.ByLastTupleElementMatch fst snd].
  destruct (it_eq k a e) as [[|] | |]; cbn [bind negb]; try reflexivity.
  cbn [dereference.getReferenceTuple fst snd].
  change (it_star (EasyIterator Z Z) (RangeIterator i s)) with (@Ok Z i).
  cbn [bind].
  destruct (it_star k a) as [x | |]; cbn [bind]; try reflexivity.
  cbn [increment.getReferenceTuple fst snd].
  rewrite range_it_inc. cbn [bind].
  destruct (it_inc k a) as [a' | |]; cbn [bind fst snd]; try reflexivity.
  rewrite IH.
  destruct (loop k fuel a' e) as [[xs | |] |]; reflexivity.
Qed.

(** X8: [zip] with a range listed first never consults that range's end:
    for [int] operands with a representable difference and a nonzero step
    (other than the division [INT_MIN % -1]), whatever [end] the range was
    given, the traversal yields one tuple for each value of the last
    sequence, pairing it with [begin], [begin+step], ... (as long as these
    stay within [int]), also beyond the range's own end. *)
Theorem zip_runs_first_range_past_its_end (b e s : Z) (t : Sequence)
    (fuel : nat) (xs : list (value_type (seq_type t))) :
  Int.in_range b -> Int.in_range e -> Int.in_range s -> Int.in_range (e - b) ->
  s <> 0 ->
  ~ (e - b = Int.min_int /\ s = -1) ->
  for_range fuel t = Some (Ok xs) ->
  (forall m, (m < List.length xs)%nat -> Int.in_range (b + Z.of_nat m * s)) ->
  exists w, range b e s = Ok w /\
            for_range fuel (Wrapped (zip [Wrapped w; t]))
            = Some (Ok (stepped b s xs)).
Proof.
  intros Hb He Hsr Hd Hs Hnt Hxs Hr.
  rewrite (range_ok Hs Hb He Hd Hnt).
  eexists. split; [reflexivity |].
  pose proof (@loop_range_first (seq_type t) (seq_end t)
                (e - Z.rem (e - b) s) s s fuel (seq_begin t) b) as H.
  unfold for_range in Hxs. rewrite Hxs in H.
  rewrite (@stepped_int_plain _ s xs b Hr) in H. exact H.
Qed.

Lemma zip_runs_first_range_past_its_end_witness :
  exists w, range 0 2 1 = Ok w /\
            traverse 3 (Ok w) = Some (Ok [0; 1]) /\
            for_range 4 (Wrapped (zip [Wrapped w; Vector ["a"; "b"; "c"]%char]))
            = Some (Ok (stepped 0 1 ["a"; "b"; "c"]%char)).
Proof.
  destruct (@zip_runs_first_range_past_its_end 0 2 1
              (Vector ["a"; "b"; "c"]%char) 4 ["a"; "b"; "c"]%char)
    as [w [Hw Hzip]]; try (int_bounds; lia).
  - vm_compute. reflexivity.
  - intros m Hm. cbn [List.length] in Hm. int_bounds. lia.
  - exists w. split; [exact Hw |]. split; [| exact Hzip].
    rewrite <- Hw. vm_compute. reflexivity.
Defined.

(** X9: for [int] operands with a representable difference, [enumerate] of
    a [range] whose step is nonzero (other than the division
    [INT_MIN % -1]) and points from [begin] to [end] numbers the values of
    the range from 0: it yields [[(0, begin), (1, begin+step), ...]], one
    pair for each value of the range. *)
Theorem enumerate_of_range (b e s : Z) (fuel : nat) :
  s <> 0 -> Int.in_range b -> Int.in_range e -> Int.in_range s ->
  Int.in_range (e - b) ->
  ~ (e - b = Int.min_int /\ s = -1) ->
  0 <= (e - b) * s ->
  (Z.to_nat ((e - b) ÷ s) < fuel)%nat ->
  exists w, range b e s = Ok w /\
            for_range fuel (Wrapped (enumerate (Wrapped w)))
            = Some (Ok (indexed 0 (progression b s (Z.to_nat ((e - b) ÷ s))))).
Proof.
  intros Hs Hb He Hsr Hd Hnt Hdir Hf.
  pose proof (@traverse_range b e s fuel Hs Hb He Hd Hnt Hdir Hf) as Ht.
  rewrite (range_ok Hs Hb He Hd Hnt) in *. cbn [traverse] in Ht.
  eexists. split; [reflexivity |].
  pose proof (@loop_enumerate (EasyIterator Z Z)
                (RangeIterator (e - Z.rem (e - b) s) s) 0 fuel
                (RangeIterator b s) 0) as H.
  cbn [wrap beginIterator endIterator] in Ht. rewrite Ht in H.
  rewrite indexed_int_plain in H; [exact H | int_bounds; lia |].
  rewrite progression_length.
  assert (Hq : (e - b) ÷ s <= Z.abs (e - b)).
  { pose proof (Z.quot_rem' (e - b) s) as Hqr.
    destruct (rem_between (e - b) Hs) as [Hp Hn].
    destruct (Z.le_gt_cases 0 (e - b)) as [Hpos | Hneg].
    - specialize (Hp Hpos). nia.
    - assert (Hneg' : e - b <= 0) by lia. specialize (Hn Hneg'). nia. }
  int_bounds. lia.
Qed.

Lemma enumerate_of_range_witness :
  exists w, range 2 10 3 = Ok w /\
            for_range 3 (Wrapped (enumerate (Wrapped w)))
            = Some (Ok (indexed 0 (progression 2 3 2))).
Proof.
  refine (@enumerate_of_range 2 10 3 3 _ _ _ _ _ _ _ _); try (int_bounds; lia).
  vm_compute. lia.
Defined.

(** ** [zip] of vectors with a shorter first argument *)

Lemma loop_zip_vectors_overrun (A B : Type) (la : list A) (lb : list B) (n : nat) :
  forall (i fuel : nat),
    (i + n = List.length la)%nat -> (List.length la < List.length lb)%nat ->
    (n < fuel)%nat ->
    loop (EasyIterator _ _) fuel
      (zip_cursor [StdVector A; StdVector B]
         (mkVectorIterator la i, (mkVectorIterator lb i, tt)))
      (zip_cursor [StdVector A; StdVector B]
         (mkVectorIterator la (List.length la),
          (mkVectorIterator lb (List.length lb), tt)))
    = Some Undefined.
Proof.
  induction n as [| n IH]; intros i fuel Hi Hlt Hf;
    (destruct fuel as [| fuel]; [lia |]);
    cbn [loop]; unfold it_ne; cbn [it_eq it_star it_inc EasyIterator];
    rewrite zip_cursor_eq, zip_cursor_star, zip_cursor_inc;
    cbn [compare.ByLastTupleElementMatch it_eq StdVector position fst snd];
    (destruct (Nat.eqb_spec i (List.length lb)) as [E | _]; [lia |]);
    cbn [bind negb];
    cbn [dereference.getReferenceTuple increment.getReferenceTuple it_star it_inc
         StdVector storage position fst snd bind].
  - assert (Ea : nth_error la i = None) by (apply nth_error_None; lia).
    rewrite Ea. reflexivity.
  - destruct (nth_error la i) as [a |] eqn:Ea;
      [| apply nth_error_None in Ea; lia].
    destruct (nth_error lb i) as [b |] eqn:Eb;
      [| apply nth_error_None in Eb; lia].
    cbn [bind fst snd]. rewrite IH by lia. reflexivity.
Qed.

(** X10: [zip] does not guard the earlier sequences: when the first of two
    vectors is shorter than the last, the loop goes on after the first
    vector's end and reads it there, which is not defined; no exception is
    thrown and no shorter result is returned. *)
Theorem zip_reads_past_shorter_first_vector (A B : Type) (la : list A)
    (lb : list B) (fuel : nat) :
  (List.length la < List.length lb)%nat ->
  (List.length la < fuel)%nat ->
  for_range fuel (Wrapped (zip [Vector la; Vector lb])) = Some Undefined.
Proof.
  intros Hlt Hf.
  exact (@loop_zip_vectors_overrun A B la lb (List.length la) 0 fuel eq_refl Hlt Hf).
Qed.

Lemma zip_reads_past_shorter_first_vector_witness :
  for_range 3 (Wrapped (zip [Vector [10; 20]; Vector ["a"; "b"; "c"]%char]))
  = Some Undefined.
Proof.
  refine (@zip_reads_past_shorter_first_vector Z ascii [10; 20]
            ["a"; "b"; "c"]%char 3 _ _); cbn; lia.
Defined.

(** ** [IncrementPtrIterator] *)

Lemma pointer_inc (A : Type) (mem : memory A) (p : pointer) :
  operator_inc (IncrementPtrIterator mem (Some p))
  = (Ok tt, IncrementPtrIterator mem (Some (p + 1))).
Proof. reflexivity. Qed.

Lemma pointer_eq (A : Type) (mem : memory A) (p q : pointer) :
  operator_eq (IncrementPtrIterator mem (Some p)) (IncrementPtrIterator mem (Some q))
  = Ok (p =? q).
Proof. reflexivity. Qed.

Lemma pointer_star (A : Type) (mem : memory A) (p : pointer) :
  fst (operator_star (IncrementPtrIterator mem (Some p))) = ByValueDereference mem p.
Proof. reflexivity. Qed.

Lemma loop_pointers (A : Type) (mem : memory A) (p : pointer) (l : list A) (n : nat) :
  forall (i fuel : nat),
    (forall m, (m < List.length l)%nat -> mem (p + Z.of_nat m) = nth_error l m) ->
    (i + n = List.length l)%nat -> (n < fuel)%nat ->
    loop (EasyIterator pointer A) fuel
      (IncrementPtrIterator mem (Some (p + Z.of_nat i)))
      (IncrementPtrIterator mem (Some (p + Z.of_nat (List.length l))))
    = Some (Ok (skipn i l)).
Proof.
  induction n as [| n IH]; intros i fuel Hmem Hi Hf;
    (destruct fuel as [| fuel]; [lia |]);
    cbn [loop]; unfold it_ne; cbn [it_eq it_star it_inc EasyIterator];
    rewrite pointer_eq, pointer_star, pointer_inc.
  - replace i with (List.length l) by lia. rewrite Z.eqb_refl, skipn_all.
    reflexivity.
  - destruct (Z.eqb_spec (p + Z.of_nat i) (p + Z.of_nat (List.length l)));
      [lia |].
    cbn [bind negb]. unfold ByValueDereference. rewrite Hmem by lia.
    destruct (nth_error l i) as [x |] eqn:Ex;
      [| apply nth_error_None in Ex; lia].
    cbn [fst snd bind].
    replace (p + Z.of_nat i + 1) with (p + Z.of_nat (S i)) by lia.
    rewrite IH by (assumption || lia).
    rewrite (skipn_nth_error _ _ Ex). reflexivity.
Qed.

(** X11: a pair of [IncrementPtrIterator]s, one at the first element of an
    array and one just past its last, is traversed in as many steps as the
    array has elements and yields them in order.  Only a cursor without a
    pointer throws on dereference: one whose pointer is outside every object
    reads memory that is not there. *)
Theorem pointer_pair_yields_array (A : Type) (mem : memory A) (p : pointer)
    (l : list A) (fuel : nat) :
  (forall m, (m < List.length l)%nat -> mem (p + Z.of_nat m) = nth_error l m) ->
  (List.length l < fuel)%nat ->
  loop (EasyIterator pointer A) fuel
    (IncrementPtrIterator mem (Some p))
    (IncrementPtrIterator mem (Some (p + Z.of_nat (List.length l))))
  = Some (Ok l) /\
  fst (operator_star (IncrementPtrIterator mem None))
  = Throw UndefinedIteratorException /\
  (forall q, mem q = None ->
     fst (operator_star (IncrementPtrIterator mem (Some q))) = Undefined).
Proof.
  intros Hmem Hf. split; [| split].
  - pose proof (@loop_pointers A mem p l (List.length l) 0 fuel Hmem eq_refl Hf) as H.
    rewrite Z.add_0_r in H. exact H.
  - reflexivity.
  - intros q Hq. rewrite pointer_star. unfold ByValueDereference.
    rewrite Hq. reflexivity.
Qed.

Lemma pointer_pair_yields_array_witness :
  let mem : memory Z :=
    fun a => if a <? 100 then None else nth_error [7; 8; 9] (Z.to_nat (a - 100)) in
  loop (EasyIterator pointer Z) 4
    (IncrementPtrIterator mem (Some 100)) (IncrementPtrIterator mem (Some 103))
  = Some (Ok [7; 8; 9]).
Proof.
  intros mem.
  refine (proj1 (@pointer_pair_yields_array Z mem 100 [7; 8; 9] 4 _ _)).
  - intros m Hm. cbn [List.length] in Hm. unfold mem.
    destruct (Z.ltb_spec (100 + Z.of_nat m) 100); [lia |].
    replace (100 + Z.of_nat m - 100) with (Z.of_nat m) by lia.
    rewrite Nat2Z.id. reflexivity.
  - cbn. lia.
Defined.

(** ** [reverse] *)

Lemma firstn_snoc (A : Type) (l : list A) :
  forall (p : nat) (x : A),
    nth_error l p = Some x -> firstn (S p) l = firstn p l ++ [x].
Proof.
  induction l as [| y l IH]; intros [| p] x H; try discriminate.
  - injection H as ->. reflexivity.
  - cbn [firstn app]. f_equal. apply IH. exact H.
Qed.

Lemma loop_reverse (A : Type) (v : list A) (p : nat) :
  forall fuel : nat,
    (p <= List.length v)%nat -> (p < fuel)%nat ->
    loop (StdVectorReverse A) fuel (mkVectorIterator v p) (rend v)
    = Some (Ok (rev (firstn p v))).
Proof.
  induction p as [| p IH]; intros fuel Hp Hf;
    (destruct fuel as [| fuel]; [lia |]);
    cbn [loop]; unfold it_ne;
    cbn [it_eq it_star it_inc StdVectorReverse rend position storage bind
         Nat.eqb negb]; [reflexivity |].
  destruct (nth_error v p) as [x |] eqn:Ex;
    [| apply nth_error_None in Ex; lia].
  change (mkVectorIterator v 0) with (rend v).
  rewrite IH by lia. rewrite (firstn_snoc _ _ Ex), rev_app_distr. reflexivity.
Qed.

(** X12: [reverse(v)] is traversed in as many steps as [v] has elements and
    yields them from the last to the first; on an empty container it yields
    nothing. *)
Theorem reverse_yields_reversed (A : Type) (v : list A) (fuel : nat) :
  (List.length v < fuel)%nat ->
  for_range fuel (WrappedOf (StdVectorReverse A) (reverse v)) = Some (Ok (rev v)).
Proof.
  intros Hf. unfold for_range, WrappedOf, reverse.
  cbn [seq_type seq_begin seq_end wrap beginIterator endIterator].
  unfold rbegin. rewrite loop_reverse by lia. rewrite firstn_all. reflexivity.
Qed.

Lemma reverse_yields_reversed_witness :
  for_range 4 (WrappedOf (StdVectorReverse Z) (reverse [1; 2; 3]))
  = Some (Ok (rev [1; 2; 3])).
Proof.
  refine (@reverse_yields_reversed Z [1; 2; 3] 4 _). cbn. lia.
Defined.


(** ** Looping from an exhausted cursor *)

(** X13: a loop that starts at an exhausted cursor and is given a live end
    cursor does not end quietly: the two compare unequal without the
    comparison strategy being asked, and the first read throws
    [UndefinedIteratorException]. *)
Theorem loop_from_exhausted_cursor_throws (T U : Type) (it e : Iterator T U)
    (x : T) (fuel : nat) :
  current it = None ->
  current e = Some x ->
  loop (EasyIterator T U) (S fuel) it e = Some (Throw UndefinedIteratorException).
Proof.
  intros Hit He. cbn [loop]. unfold it_ne. cbn [it_eq it_star EasyIterator].
  unfold operator_eq, operator_star, operator_bool. rewrite Hit, He.
  reflexivity.
Qed.

Lemma loop_from_exhausted_cursor_throws_witness :
  loop (EasyIterator Z Z) 1
    (CallbackIterator None (increment.ByValue 1) dereference.ByValue compare.ByValue)
    (RangeIterator 5 1)
  = Some (Throw UndefinedIteratorException).
Proof.
  exact (@loop_from_exhausted_cursor_throws Z Z
           (CallbackIterator None (increment.ByValue 1) dereference.ByValue
              compare.ByValue)
           (RangeIterator 5 1) 5 0 eq_refl eq_refl).
Defined.
